(** * Retrieval core of ohara-ai-backend (server.js)

    A shallow embedding of the retrieval subsystem of [server.js]: text
    normalisation, chunking, tokenisation, index construction, overlap
    scoring with top-K selection, and the two-locale language detector.
    Both server variants in the source carry the same retrieval core, so one
    embedding covers them.

    JavaScript strings are sequences of UTF-16 code units; they are modelled
    as [list N].  Regular expressions without the [u] flag, [String.length]
    and [String.prototype.split] all work on code units, so does the model. *)

From Stdlib Require Import DecimalString DecimalNat.
From stdpp Require Import base numbers list sorting gmap sets strings.

Local Open Scope Z_scope.

(** ** JavaScript strings *)

Module JS.

Abbreviation jsstring := (list N).

(** An ASCII literal as a JavaScript string. *)
Fixpoint lit (s : string) : jsstring :=
  match s with
  | String.EmptyString => []
  | String.String a r => Ascii.N_of_ascii a :: lit r
  end.

(** The regular-expression class [\s] of ECMAScript (WhiteSpace and
    LineTerminator), which is also the set removed by [trim]. *)
Definition isWhiteSpace (c : N) : bool :=
  bool_decide (0x09 ≤ c ≤ 0x0D)%N
  || bool_decide (c = 0x20)%N
  || bool_decide (c = 0xA0)%N
  || bool_decide (c = 0x1680)%N
  || bool_decide (0x2000 ≤ c ≤ 0x200A)%N
  || bool_decide (c = 0x2028)%N
  || bool_decide (c = 0x2029)%N
  || bool_decide (c = 0x202F)%N
  || bool_decide (c = 0x205F)%N
  || bool_decide (c = 0x3000)%N
  || bool_decide (c = 0xFEFF)%N.

Definition SPACE : N := 0x20%N.

(** [String.prototype.toLowerCase], one code unit at a time.  The table
    covers Basic Latin, Latin-1 Supplement and Latin Extended-A, the
    unconditional special casing of U+0130 (which becomes U+0069 U+0307)
    and the code points above U+017F whose lower case lies below U+0180
    (CAPITAL SHARP S, KELVIN SIGN, ANGSTROM SIGN).  Any other code unit is
    left as it is: the engine may map it to other code units, but never to
    one below U+0180, so nothing that happens to it can enter or leave the
    character class used by [tokenize].  The table is therefore the engine's
    function on texts of code units below U+0180; on other texts (Greek,
    Cyrillic) it is not, and agrees with it only up to code units that
    [tokenize] blanks either way. *)
Definition lowerUnit (c : N) : jsstring :=
  if bool_decide (0x41 ≤ c ≤ 0x5A)%N then [(c + 32)%N]
  else if bool_decide (0xC0 ≤ c ≤ 0xDE ∧ c ≠ 0xD7)%N then [(c + 32)%N]
  else if bool_decide (c = 0x130)%N then [0x69; 0x307]%N
  else if bool_decide (c = 0x178)%N then [0xFF%N]
  else if bool_decide ((0x100 ≤ c ≤ 0x12F ∨ 0x132 ≤ c ≤ 0x137
                        ∨ 0x14A ≤ c ≤ 0x177) ∧ N.even c = true)%N
       then [(c + 1)%N]
  else if bool_decide ((0x139 ≤ c ≤ 0x148 ∨ 0x179 ≤ c ≤ 0x17E)
                       ∧ N.odd c = true)%N
       then [(c + 1)%N]
  else if bool_decide (c = 0x1E9E)%N then [0xDF%N]
  else if bool_decide (c = 0x212A)%N then [0x6B%N]
  else if bool_decide (c = 0x212B)%N then [0xE5%N]
  else [c].

Definition toLowerCase (s : jsstring) : jsstring := s ≫= lowerUnit.

(** [s.split(/\s+/)]: the pieces between maximal runs of white space.  A
    leading or trailing run leaves an empty piece at that end, and the
    empty string yields one empty piece.  [inws] records that the scan is
    inside a run whose piece has already been emitted; [cur] is the
    current piece, reversed. *)
Fixpoint split_go (inws : bool) (cur : jsstring) (s : jsstring)
  : list jsstring :=
  match s with
  | [] => [reverse cur]
  | c :: r =>
      if isWhiteSpace c
      then if inws then split_go true [] r
           else reverse cur :: split_go true [] r
      else split_go false (c :: cur) r
  end.

Definition split_ws (s : jsstring) : list jsstring := split_go false [] s.

(** [arr.join(sep)]. *)
Fixpoint join (l : list jsstring) (sep : jsstring) : jsstring :=
  match l with
  | [] => []
  | [w] => w
  | w :: l' => w ++ sep ++ join l' sep
  end.

(** [s.replace(/\s+/g, " ")]: every maximal run of white space becomes one
    space. *)
Fixpoint collapse_ws (inws : bool) (s : jsstring) : jsstring :=
  match s with
  | [] => []
  | c :: r =>
      if isWhiteSpace c
      then if inws then collapse_ws true r else SPACE :: collapse_ws true r
      else c :: collapse_ws false r
  end.

Fixpoint trimStart (s : jsstring) : jsstring :=
  match s with
  | [] => []
  | c :: r => if isWhiteSpace c then trimStart r else s
  end.

Definition trim (s : jsstring) : jsstring :=
  reverse (trimStart (reverse (trimStart s))).

(** [arr.slice(start, end)] for integer arguments: a negative argument
    counts from the end, and both are clamped to the array. *)
Definition relativeIndex (len k : Z) : Z :=
  if decide (k < 0) then Z.max (len + k) 0 else Z.min k len.

Definition slice {A} (l : list A) (start end_ : Z) : list A :=
  let len := Z.of_nat (length l) in
  let k := relativeIndex len start in
  let final := relativeIndex len end_ in
  take (Z.to_nat (final - k)) (drop (Z.to_nat k) l).

(** [String(n)] for a non-negative integer. *)
Definition decimal (n : nat) : jsstring :=
  lit (NilEmpty.string_of_uint (Nat.to_uint n)).

(** [[...s]]: iteration by code point; a high surrogate followed by a low
    surrogate is one element of two code units, any other code unit is an
    element of its own. *)
Fixpoint spread (s : jsstring) : list jsstring :=
  match s with
  | [] => []
  | c :: r =>
      match r with
      | d :: r' =>
          if bool_decide (0xD800 ≤ c ≤ 0xDBFF)%N
             && bool_decide (0xDC00 ≤ d ≤ 0xDFFF)%N
          then [c; d] :: spread r'
          else [c] :: spread r
      | [] => [[c]]
      end
  end.

(** [s.includes(t)]: [t] occurs in [s] as a contiguous run. *)
Fixpoint startsWith (s t : jsstring) : bool :=
  match t, s with
  | [], _ => true
  | _ :: _, [] => false
  | y :: t', x :: s' => bool_decide (x = y) && startsWith s' t'
  end.

Fixpoint includes (s t : jsstring) : bool :=
  startsWith s t ||
  match s with
  | [] => false
  | _ :: s' => includes s' t
  end.

End JS.

Import JS.

(** ** The program *)

(** An index entry, [{ text, source }]. *)
Record Chunk := { text : jsstring; source : jsstring }.

(** An element of [scored]: [{ ...ch, score }]. *)
Record Scored := { chunk : Chunk; score : Z }.

(** What a caller of [retrieveRelevantChunks] receives: either an element of
    [scored] or an index entry as it is, which has no [score] property. *)
Inductive Retrieved :=
  | WithScore (r : Scored)
  | Plain (ch : Chunk).

(** [r.source], [r.text] and [r.score] as the request handler reads them;
    [None] is [undefined]. *)
Definition r_source (r : Retrieved) : jsstring :=
  match r with WithScore s => source (chunk s) | Plain ch => source ch end.

Definition r_text (r : Retrieved) : jsstring :=
  match r with WithScore s => text (chunk s) | Plain ch => text ch end.

Definition r_score (r : Retrieved) : option Z :=
  match r with WithScore s => Some (score s) | Plain _ => None end.

(** What goes to the console. *)
Inductive LogEvent :=
  | LogReading (file : jsstring)
  | LogAdded (file : jsstring) (n : nat)
  | LogReadError
  | LogTotal (n : nat).

(** The process-wide state: the index [CHUNKS] and the console output. *)
Record Server := { CHUNKS : list Chunk; console : list LogEvent }.

(** The collaborators of [buildIndex]: the directory listing and the two
    loaders, where [None] stands for a thrown exception or a rejected
    promise. *)
Record FileSystem := {
  readdirSync : list jsstring;
  readFileUtf8 : jsstring → option jsstring;
  extractRawText : jsstring → option jsstring
}.

Definition loadTxtFile (fs : FileSystem) (filePath : jsstring) : option jsstring :=
  readFileUtf8 fs filePath.

Definition loadDocxFile (fs : FileSystem) (filePath : jsstring) : option jsstring :=
  extractRawText fs filePath.

Definition normalizeText (text : jsstring) : jsstring :=
  trim (collapse_ws false text).

(** The [for] loop of [chunkText].  [None] is a run that has not finished
    within [fuel] iterations. *)
Fixpoint chunkText_loop (fuel : nat) (words : list jsstring)
    (wordsPerChunk i : Z) (chunks : list jsstring) : option (list jsstring) :=
  match fuel with
  | O => None
  | S fuel' =>
      if decide (i < Z.of_nat (length words)) then
        let slice_ := slice words i (i + wordsPerChunk) in
        let chunks' :=
          if decide (20 < Z.of_nat (length slice_))
          then chunks ++ [join slice_ [SPACE]]
          else chunks in
        chunkText_loop fuel' words wordsPerChunk (i + wordsPerChunk) chunks'
      else Some chunks
  end.

(** [chunkText(text, wordsPerChunk)].  One unit of fuel per word and one for
    the last test is enough whenever the loop ends at all
    (see [chunkText_loop_fuel] and [chunkText_loop_diverges]). *)
Definition chunkText (text : jsstring) (wordsPerChunk : Z)
  : option (list jsstring) :=
  let words := split_ws text in
  chunkText_loop (S (length words)) words wordsPerChunk 0 [].

Definition DEFAULT_WORDS_PER_CHUNK : Z := 350.

(** [path.extname] of Node.js in its POSIX flavour: the scan of the path
    from its last code unit to its first, and the test that follows it. *)
Module NodePath.

Record ExtScan := {
  startDot : Z;
  startPart : Z;
  end_ : Z;
  matchedSlash : bool;
  preDotState : Z
}.

Definition CHAR_FORWARD_SLASH : N := 0x2F%N.
Definition CHAR_DOT : N := 0x2E%N.

(** The loop body at index [i = n - 1], then the rest of the loop. *)
Fixpoint extname_scan (path : jsstring) (n : nat) (s : ExtScan) : ExtScan :=
  match n with
  | O => s
  | S i =>
      match path !! i with
      | None => s
      | Some code =>
          if bool_decide (code = CHAR_FORWARD_SLASH) then
            if matchedSlash s then extname_scan path i s
            else {| startDot := startDot s; startPart := Z.of_nat i + 1;
                    end_ := end_ s; matchedSlash := matchedSlash s;
                    preDotState := preDotState s |}
          else
            let s1 :=
              if decide (end_ s = -1)
              then {| startDot := startDot s; startPart := startPart s;
                      end_ := Z.of_nat i + 1; matchedSlash := false;
                      preDotState := preDotState s |}
              else s in
            let s2 :=
              if bool_decide (code = CHAR_DOT) then
                if decide (startDot s1 = -1)
                then {| startDot := Z.of_nat i; startPart := startPart s1;
                        end_ := end_ s1; matchedSlash := matchedSlash s1;
                        preDotState := preDotState s1 |}
                else if decide (preDotState s1 ≠ 1)
                then {| startDot := startDot s1; startPart := startPart s1;
                        end_ := end_ s1; matchedSlash := matchedSlash s1;
                        preDotState := 1 |}
                else s1
              else if decide (startDot s1 ≠ -1)
              then {| startDot := startDot s1; startPart := startPart s1;
                      end_ := end_ s1; matchedSlash := matchedSlash s1;
                      preDotState := -1 |}
              else s1 in
            extname_scan path i s2
      end
  end.

Definition extname (path : jsstring) : jsstring :=
  let s := extname_scan path (length path)
             {| startDot := -1; startPart := 0; end_ := -1;
                matchedSlash := true; preDotState := 0 |} in
  if decide (startDot s = -1 ∨ end_ s = -1 ∨ preDotState s = 0
             ∨ (preDotState s = 1 ∧ startDot s = end_ s - 1
                ∧ startDot s = startPart s + 1))
  then []
  else slice path (startDot s) (end_ s).

End NodePath.

(** [fileChunks.forEach((c, idx) => chunks.push({...}))], from index [idx]
    on. *)
Fixpoint forEach_push (file : jsstring) (fileChunks : list jsstring)
    (idx : nat) (chunks : list Chunk) : list Chunk :=
  match fileChunks with
  | [] => chunks
  | c :: rest =>
      forEach_push file rest (S idx)
        (chunks ++ [{| text := c;
                       source := file ++ lit "#" ++ decimal idx |}])
  end.

(** One turn of the [for (const file of files)] loop of [buildIndex] on the
    local array [chunks] and the console.  The loaders are looked up by file
    name: [root] is the same for every file.  The result is [None] only if
    [chunkText] does not return. *)
Definition buildIndex_file (fs : FileSystem)
    (st : list Chunk * list LogEvent) (file : jsstring)
  : option (list Chunk * list LogEvent) :=
  let ext := toLowerCase (NodePath.extname file) in
  if decide (ext = lit ".txt" ∨ ext = lit ".docx") then
    let out := st.2 ++ [LogReading file] in
    match (if decide (ext = lit ".txt") then loadTxtFile fs file
           else loadDocxFile fs file) with
    | None => Some (st.1, out ++ [LogReadError])
    | Some raw =>
        let text := normalizeText raw in
        if decide (text = []) then Some (st.1, out)
        else
          fileChunks ← chunkText text DEFAULT_WORDS_PER_CHUNK;
          Some (forEach_push file fileChunks 0 st.1,
                out ++ [LogAdded file (length fileChunks)])
    end
  else Some st.

Fixpoint buildIndex_loop (fs : FileSystem) (files : list jsstring)
    (st : list Chunk * list LogEvent) : option (list Chunk * list LogEvent) :=
  match files with
  | [] => Some st
  | file :: rest => st' ← buildIndex_file fs st file; buildIndex_loop fs rest st'
  end.

(** [buildIndex()]: the new server state, or [None] if it never completes. *)
Definition buildIndex (fs : FileSystem) (srv : Server) : option Server :=
  st ← buildIndex_loop fs (readdirSync fs) ([], console srv);
  Some {| CHUNKS := st.1;
          console := st.2 ++ [LogTotal (length st.1)] |}.

(** The letters [ığüşöçİĞÜŞÖÇ] of the character class of [tokenize]. *)
Definition classLetters : list N :=
  [0x131; 0x11F; 0xFC; 0x15F; 0xF6; 0xE7;
   0x130; 0x11E; 0xDC; 0x15E; 0xD6; 0xC7]%N.

(** Membership in [[a-zA-Z0-9ığüşöçİĞÜŞÖÇ\s]]. *)
Definition inTokenClass (c : N) : bool :=
  bool_decide (0x61 ≤ c ≤ 0x7A)%N
  || bool_decide (0x41 ≤ c ≤ 0x5A)%N
  || bool_decide (0x30 ≤ c ≤ 0x39)%N
  || bool_decide (c ∈ classLetters)
  || isWhiteSpace c.

Definition tokenize (str : jsstring) : list jsstring :=
  let lowered := toLowerCase str in
  let replaced := (λ c, if inTokenClass c then c else SPACE) <$> lowered in
  filter (λ w, (2 < length w)%nat) (split_ws replaced).

Definition scoreChunk (questionTokens chunkTokens : list jsstring) : Z :=
  let setQ : gset jsstring := list_to_set questionTokens in
  foldl (λ score t, if decide (t ∈ setQ) then score + 1 else score)
        0 chunkTokens.

(** [Array.prototype.sort] with a comparison function.  ECMAScript requires
    the sort to be stable, and a stable sort has one result for a consistent
    comparison function, so the model is free to sort by insertion: an
    element is placed before the first element that it need not follow
    ([compareFn x y ≤ 0]). *)
Section Sort.
Context {A : Type} (compareFn : A → A → Z).

Fixpoint sort_insert (x : A) (l : list A) : list A :=
  match l with
  | [] => [x]
  | y :: l' =>
      if decide (compareFn x y ≤ 0) then x :: l
      else y :: sort_insert x l'
  end.

Definition sort (l : list A) : list A := foldr sort_insert [] l.
End Sort.

(** [(a, b) => b.score - a.score]. *)
Definition byScoreDesc (a b : Scored) : Z := score b - score a.

(** [scored] before and after [scored.sort(...)]. *)
Definition scoredChunks (srv : Server) (question : jsstring) : list Scored :=
  let qTokens := tokenize question in
  (λ ch, {| chunk := ch;
            score := scoreChunk qTokens (tokenize (text ch)) |})
    <$> CHUNKS srv.

Definition sortedChunks (srv : Server) (question : jsstring) : list Scored :=
  sort byScoreDesc (scoredChunks srv question).

(** The test [scored[0]?.score === 0]. *)
Definition fallbackTest (scored : list Scored) : bool :=
  bool_decide (score <$> head scored = Some 0).

(** [retrieveRelevantChunks(question, topK)]: the returned array and the
    server state after the call. *)
Definition retrieveRelevantChunks (srv : Server) (question : jsstring)
    (topK : Z) : list Retrieved * Server :=
  let scored := sortedChunks srv question in
  if fallbackTest scored then (Plain <$> slice (CHUNKS srv) 0 topK, srv)
  else (WithScore <$> slice scored 0 topK, srv).

Definition DEFAULT_TOP_K : Z := 4.

(** The string [trChars] of [detectLanguage]: [çğıöşüÇĞİÖŞÜ]. *)
Definition trChars : jsstring :=
  [0xE7; 0x11F; 0x131; 0xF6; 0x15F; 0xFC;
   0xC7; 0x11E; 0x130; 0xD6; 0x15E; 0xDC]%N.

Definition detectLanguage (text : jsstring) : jsstring :=
  let hasTr := existsb (λ c, includes trChars c) (spread text) in
  if hasTr then lit "tr" else lit "en".

(** ** Words and windows (specification side) *)

(** The number of pieces that [split(/\s+/)] finds in a string, which is
    what [chunkText] counts.  On a text that neither begins nor ends with
    white space (a normalised text is one) the pieces are the words of the
    text (see [wordCount_words]); a leading or a trailing run of white
    space adds an empty piece to the count. *)
Definition wordCount (s : jsstring) : nat := length (split_ws s).

(** Consecutive, non-overlapping windows of [n] elements; the last one may
    be shorter. *)
Fixpoint windows_go {A} (fuel n : nat) (l : list A) : list (list A) :=
  match fuel with
  | O => []
  | S fuel' =>
      match l with
      | [] => []
      | _ :: _ => take n l :: windows_go fuel' n (drop n l)
      end
  end.

Definition windows {A} (n : nat) (l : list A) : list (list A) :=
  windows_go (length l) n l.

(** The windows that [chunkText] keeps, joined again. *)
Definition keptWindows (n : nat) (words : list jsstring) : list jsstring :=
  (λ w, join w [SPACE]) <$> filter (λ w, (20 < length w)%nat) (windows n words).

(** ** Splitting and joining *)

Definition wsfree (w : jsstring) : Prop :=
  Forall (λ c, isWhiteSpace c = false) w.

(** Every element but the last is non-empty. *)
Fixpoint front_nonempty (l : list jsstring) : Prop :=
  match l with
  | [] => True
  | w :: l' =>
      match l' with
      | [] => True
      | _ :: _ => w ≠ [] ∧ front_nonempty l'
      end
  end.

(** The shape of what [split_ws] returns: pieces free of white space, empty
    at most at the two ends. *)
Definition pieces (l : list jsstring) : Prop :=
  Forall wsfree l ∧ front_nonempty (tail l).

(** ** Tokens and overlap (specification side) *)

(** The character set of the tokenizer as the specification words it:
    [a-z], [0-9], white space and the accented letters. *)
Definition inSpecClass (c : N) : bool :=
  bool_decide (0x61 ≤ c ≤ 0x7A)%N
  || bool_decide (0x30 ≤ c ≤ 0x39)%N
  || isWhiteSpace c
  || bool_decide (c ∈ classLetters).

(** Lower-case, blank what is outside the set, split on white space, drop
    the tokens of at most two code units. *)
Definition tokenize_spec (str : jsstring) : list jsstring :=
  let blanked :=
    (λ c, if inSpecClass c then c else SPACE) <$> toLowerCase str in
  filter (λ w, ¬ (length w ≤ 2)%nat) (split_ws blanked).

(** The number of positions of the token sequence of [chunk_text] whose
    token is among the tokens of [question]. *)
Definition overlap (question chunk_text : jsstring) : nat :=
  length (filter (λ t, t ∈ tokenize question) (tokenize chunk_text)).

(** A character (an element of the iteration of the text by code point)
    that is one of the accented letters. *)
Definition accented (c : jsstring) : Prop := ∃ u, u ∈ trChars ∧ c = [u].

(** The order that [scored.sort] is to establish. *)
Definition scoreDescending : list Scored → Prop :=
  StronglySorted (λ a b, score b ≤ score a).

(** ** The index (specification side) *)

Definition supported (file : jsstring) : Prop :=
  let ext := toLowerCase (NodePath.extname file) in
  ext = lit ".txt" ∨ ext = lit ".docx".

(** The decoder that applies to a supported file. *)
Definition decode (fs : FileSystem) (file : jsstring) : option jsstring :=
  if decide (toLowerCase (NodePath.extname file) = lit ".txt")
  then readFileUtf8 fs file
  else extractRawText fs file.

(** The records of one file: its chunks, numbered from 0. *)
Definition fileRecords (file : jsstring) (fileChunks : list jsstring)
  : list Chunk :=
  imap (λ idx c, {| text := c; source := file ++ lit "#" ++ decimal idx |})
       fileChunks.

(** What one directory entry adds to the index: nothing unless it is
    supported, decodes, and normalises to a non-empty text. *)
Definition contribution (fs : FileSystem) (file : jsstring) : list Chunk :=
  if decide (supported file) then
    match decode fs file with
    | Some raw =>
        let text := normalizeText raw in
        if decide (text = []) then []
        else fileRecords file
               (keptWindows (Z.to_nat DEFAULT_WORDS_PER_CHUNK) (split_ws text))
    | None => []
    end
  else [].

Definition expectedIndex (fs : FileSystem) : list Chunk :=
  readdirSync fs ≫= contribution fs.

(** ** Scenarios *)

Definition scenario3 : Server :=
  {| CHUNKS :=
       [ {| text := lit "metabolism sleep routine"; source := lit "a#0" |};
         {| text := lit "unrelated filler words here"; source := lit "b#0" |} ];
     console := [] |}.

(** A normalised text of [n] words. *)
Definition wordsText (n : nat) : jsstring :=
  join (replicate n (lit "word")) [SPACE].

(** A space followed by 20 words: a text that is not normalised. *)
Definition leadingSpaceText : jsstring := SPACE :: wordsText 20.

(** [Nasıl uyuyabilirim]. *)
Definition nasil_uyuyabilirim : jsstring :=
  lit "Nas" ++ [0x131%N] ++ lit "l uyuyabilirim".

(** A directory with one text file that decodes, one that does not, and
    one entry that is not supported. *)
Definition sampleFs : FileSystem :=
  {| readdirSync := [lit "bad.txt"; lit "notes.TXT"; lit "server.js"];
     readFileUtf8 := λ file,
       if decide (file = lit "notes.TXT") then Some (wordsText 30) else None;
     extractRawText := λ _, None |}.

(** The server state that [buildIndex] reaches in that directory. *)
Definition sampleServer : Server :=
  {| CHUNKS := [ {| text := wordsText 30; source := lit "notes.TXT#0" |} ];
     console := [ LogReading (lit "bad.txt"); LogReadError;
                  LogReading (lit "notes.TXT");
                  LogAdded (lit "notes.TXT") 1; LogTotal 1 ] |}.

(** ** The request handler *)

(** The text constants in which the two server variants differ: the system
    message and, per language, the prompt around the question and the
    context. *)
Record Template := {
  head_ : jsstring;
  mid_ : jsstring;
  noContext : jsstring;
  tail_ : jsstring
}.

Record Persona := {
  systemContent : jsstring;
  trTemplate : Template;
  enTemplate : Template
}.

Definition NL : N := 0x0A%N.

(** The constants of the first variant. *)
Definition plainPersona : Persona :=
  {| systemContent :=
       lit "You are a multilingual assistant. ALWAYS answer in the user's language.";
     trTemplate :=
       {| head_ :=
            [NL] ++ lit "KULLANICI T" ++ [0xDC%N] ++ lit "RK" ++ [0xC7%N]
            ++ lit "E KONU" ++ [0x15E%N] ++ lit "UYOR.  " ++ [NL]
            ++ lit "Sen de T" ++ [0xDC%N] ++ lit "RK" ++ [0xC7%N]
            ++ lit "E cevap vereceksin.  " ++ [NL]
            ++ lit "K" ++ [0x131%N] ++ lit "sa, net, g" ++ [0xFC%N]
            ++ lit "venli, bilimsel temelli cevaplar " ++ [0xFC%N]
            ++ lit "ret.  " ++ [NL] ++ lit "Soru: ";
          mid_ := [NL; NL] ++ lit "Ba" ++ [0x11F%N] ++ lit "lam:" ++ [NL];
          noContext :=
            lit "Ba" ++ [0x11F%N] ++ lit "lam bulunamad" ++ [0x131%N]
            ++ lit ", genel ve g" ++ [0xFC%N] ++ lit "venli bilgi ver.";
          tail_ := [NL] ++ lit "      " |};
     enTemplate :=
       {| head_ :=
            [NL] ++ lit "The USER IS SPEAKING ENGLISH.  " ++ [NL]
            ++ lit "You MUST answer in ENGLISH.  " ++ [NL]
            ++ lit "Keep answers short, clear and safe.  " ++ [NL]
            ++ lit "Question: ";
          mid_ := [NL; NL] ++ lit "Context:" ++ [NL];
          noContext :=
            lit "No context found. Provide general, safe information.";
          tail_ := [NL] ++ lit "      " |} |}.

(** [groq.chat.completions.create] as the handler uses it: from the system
    and user contents to [None] when the call throws, and otherwise to
    [completion.choices?.[0]?.message?.content], where [None] is a missing
    content.  The user content is [prompts[lang]], which is [undefined]
    ([None]) for a key that the object does not have. *)
Definition Groq : Type := jsstring → option jsstring → option (option jsstring).

(** What the handler does besides answering: its calls of the generation
    service and its [console.error]. *)
Inductive ChatEvent :=
  | GroqRequest (system : jsstring) (user : option jsstring)
  | ErrorLogged.

(** The answers of [/chat]: status 400 with its [error], status 200 with
    [answer], [language] and [used_chunks] (each a [source] and a [score],
    [None] for a score that is [undefined] and therefore left out of the
    JSON), status 500 (whose [detail] is the text of the exception). *)
Inductive Response :=
  | Status400 (error : jsstring)
  | Status200 (answer language : jsstring)
              (used_chunks : list (jsstring * option Z))
  | Status500.

(** [`Source: ${r.source}\n${r.text}`], joined by a rule. *)
Definition contextBlock (r : Retrieved) : jsstring :=
  lit "Source: " ++ r_source r ++ [NL] ++ r_text r.

Definition contextOf (relevant : list Retrieved) : jsstring :=
  join (contextBlock <$> relevant) ([NL; NL] ++ lit "---" ++ [NL; NL]).

Definition fillTemplate (t : Template) (question context : jsstring)
  : jsstring :=
  head_ t ++ question ++ mid_ t
  ++ (if decide (context = []) then noContext t else context) ++ tail_ t.

(** [prompts[lang]]. *)
Definition prompts (p : Persona) (question context : jsstring)
    (lang : jsstring) : option jsstring :=
  if decide (lang = lit "tr")
  then Some (fillTemplate (trTemplate p) question context)
  else if decide (lang = lit "en")
  then Some (fillTemplate (enTemplate p) question context)
  else None.

Definition EMPTY_QUESTION_ERROR : jsstring :=
  lit "question alan" ++ [0x131%N] ++ lit " bo" ++ [0x15F%N] ++ lit " olamaz.".

(** The handler of [POST /chat] for a request whose [body] is [undefined]
    ([None]) or an object whose [question] is missing ([Some None]) or a
    string.  The result is the answer, what the handler did, and the server
    state after it. *)
Definition chat (p : Persona) (groq : Groq) (srv : Server)
    (body : option (option jsstring))
  : Response * list ChatEvent * Server :=
  match body with
  | None => (Status500, [ErrorLogged], srv)
  | Some q =>
      let question := trim (default [] q) in
      if decide (question = []) then (Status400 EMPTY_QUESTION_ERROR, [], srv)
      else
        let lang := detectLanguage question in
        let '(relevant, srv') := retrieveRelevantChunks srv question 4 in
        let context := contextOf relevant in
        let selectedPrompt := prompts p question context lang in
        let request := GroqRequest (systemContent p) selectedPrompt in
        match groq (systemContent p) selectedPrompt with
        | None => (Status500, [request; ErrorLogged], srv')
        | Some content =>
            (Status200 (default [] content) lang
               ((λ r, (r_source r, r_score r)) <$> relevant),
             [request], srv')
        end
  end.

(** ** Further notions (specification side) *)

(** The words of a text: the non-empty pieces between runs of white
    space. *)
Definition words (s : jsstring) : list jsstring :=
  filter (λ w, w ≠ []) (split_ws s).

(** A string of white space only. *)
Definition allws (s : jsstring) : Prop := Forall (λ c, isWhiteSpace c = true) s.

(** A string that is empty or begins and ends outside white space. *)
Definition solid (m : jsstring) : Prop :=
  m = [] ∨ ((∃ c m', m = c :: m' ∧ isWhiteSpace c = false)
            ∧ ∃ m0 c, m = m0 ++ [c] ∧ isWhiteSpace c = false).

(** No two white-space units in a row. *)
Fixpoint no_ws_pair (s : jsstring) : Prop :=
  match s with
  | a :: r =>
      match r with
      | b :: _ => ¬ (isWhiteSpace a = true ∧ isWhiteSpace b = true)
                  ∧ no_ws_pair r
      | [] => True
      end
  | [] => True
  end.

(** A code unit that cannot be part of a token: whatever [toLowerCase]
    makes of it is blanked by [tokenize] or is white space. *)
Definition separates (c : N) : Prop :=
  Forall (λ x, inTokenClass x = false ∨ isWhiteSpace x = true) (lowerUnit c).

(** The index entry behind a returned record. *)
Definition r_chunk (r : Retrieved) : Chunk :=
  match r with WithScore s => chunk s | Plain ch => ch end.

(** The code units that can occur in a token: [a-z], [0-9] and the
    lower-case letters [ığüşöç]. *)
Definition isTokenUnit (c : N) : bool :=
  bool_decide (0x61 ≤ c ≤ 0x7A)%N
  || bool_decide (0x30 ≤ c ≤ 0x39)%N
  || bool_decide (c ∈ [0x131; 0x11F; 0xFC; 0x15F; 0xF6; 0xE7]%N).

(** A generation service that echoes the user content. *)
Definition echoGroq : Groq := λ _ user, Some user.

(** A generation service whose call throws. *)
Definition failingGroq : Groq := λ _ _, None.

Lemma front_nonempty_tail l : front_nonempty l → front_nonempty (tail l).
Proof. destruct l as [|w [|w' l']]; simpl; tauto. Qed.

Lemma front_nonempty_cons w l :
  w ≠ [] → front_nonempty l → front_nonempty (w :: l).
Proof. destruct l; simpl; tauto. Qed.

Lemma front_nonempty_drop n l : front_nonempty l → front_nonempty (drop n l).
Proof.
  revert l; induction n as [|n IH]; intros l H; [done|].
  destruct l as [|w l]; [done|]. apply IH.
  by apply (front_nonempty_tail (w :: l)).
Qed.

Lemma front_nonempty_take n l : front_nonempty l → front_nonempty (take n l).
Proof.
  revert l; induction n as [|n IH]; intros l H; [done|].
  destruct l as [|w l]; [done|]. cbn [take].
  destruct l as [|w' l]; [by destruct n|].
  destruct H as [Hw H]. specialize (IH _ H).
  destruct n as [|n]; [done|]. by apply front_nonempty_cons.
Qed.

Lemma pieces_drop n l : pieces l → pieces (drop n l).
Proof.
  intros [Hf Hn]. split; [by apply Forall_drop|].
  destruct n as [|n]; [done|]. destruct l as [|w l]; [done|].
  cbn [drop]. apply front_nonempty_tail, front_nonempty_drop. exact Hn.
Qed.

Lemma pieces_take n l : pieces l → pieces (take n l).
Proof.
  intros [Hf Hn]. split; [by apply Forall_take|].
  destruct n as [|n]; [done|]. destruct l as [|w l]; [done|].
  by apply front_nonempty_take.
Qed.

Lemma split_go_word cur w s :
  wsfree w → split_go false cur (w ++ s) = split_go false (reverse w ++ cur) s.
Proof.
  revert cur; induction w as [|c w IH]; intros cur Hw; [done|].
  apply Forall_cons in Hw as [Hc Hw]. cbn [app split_go]. rewrite Hc.
  rewrite IH by done. by rewrite reverse_cons, <-(assoc_L (++)).
Qed.

Lemma split_go_resume s :
  (∀ c r, s = c :: r → isWhiteSpace c = false) →
  split_go true [] s = split_go false [] s.
Proof.
  destruct s as [|c r]; [done|]. intros H. simpl. by rewrite (H c r).
Qed.

Lemma join_head_nonspace w l c r :
  Forall wsfree (w :: l) → front_nonempty (w :: l) →
  join (w :: l) [SPACE] = c :: r → isWhiteSpace c = false.
Proof.
  intros Hf Hn. apply Forall_cons in Hf as [Hw _].
  destruct l as [|w' l].
  - simpl. intros ->. by apply Forall_cons in Hw as [? _].
  - destruct Hn as [Hne _]. destruct w as [|c' w]; [done|].
    cbn [join app]. intros [= -> _]. by apply Forall_cons in Hw as [? _].
Qed.

Lemma split_go_join w l cur :
  Forall wsfree (w :: l) → front_nonempty l →
  split_go false cur (join (w :: l) [SPACE]) = (reverse cur ++ w) :: l.
Proof.
  revert w cur; induction l as [|w' l IH]; intros w cur Hf Hn.
  - apply Forall_cons in Hf as [Hw _]. cbn [join].
    rewrite <-(right_id_L [] (++) w) at 1. rewrite split_go_word by done.
    cbn [split_go]. by rewrite reverse_app, reverse_involutive.
  - pose proof Hf as Hf'. apply Forall_cons in Hf' as [Hw Hl].
    change (join (w :: w' :: l) [SPACE])
      with (w ++ [SPACE] ++ join (w' :: l) [SPACE]).
    rewrite split_go_word by done. cbn [app split_go].
    change (isWhiteSpace SPACE) with true. cbn iota.
    rewrite reverse_app, reverse_involutive. f_equal.
    rewrite split_go_resume.
    + rewrite IH; [done|done|]. by apply front_nonempty_tail in Hn.
    + intros c r. by apply join_head_nonspace.
Qed.

Lemma split_join l :
  l ≠ [] → pieces l → split_ws (join l [SPACE]) = l.
Proof.
  destruct l as [|w l]; [done|]. intros _ [Hf Hn].
  unfold split_ws. by rewrite split_go_join.
Qed.

Lemma split_go_wsfree b cur s :
  wsfree cur → Forall wsfree (split_go b cur s).
Proof.
  revert b cur; induction s as [|c r IH]; intros b cur Hc; cbn [split_go].
  - apply Forall_singleton. by apply Forall_reverse.
  - destruct (isWhiteSpace c) eqn:E.
    + destruct b; [apply IH; constructor|]. apply Forall_cons. split.
      * by apply Forall_reverse.
      * apply IH; constructor.
    + apply IH. by apply Forall_cons.
Qed.

Lemma split_go_front s :
  front_nonempty (split_go true [] s)
  ∧ ∀ cur, cur ≠ [] → front_nonempty (split_go false cur s).
Proof.
  induction s as [|c r [IH1 IH2]]; cbn [split_go].
  - done.
  - destruct (isWhiteSpace c) eqn:E.
    + split; [done|]. intros cur Hc. apply front_nonempty_cons; [|done].
      intros Hr. apply Hc. by rewrite <-(reverse_involutive cur), Hr.
    + split; [by apply IH2|]. intros cur _. by apply IH2.
Qed.

Lemma split_ws_pieces s : pieces (split_ws s).
Proof.
  split; [apply split_go_wsfree; constructor|]. unfold split_ws.
  destruct s as [|c r]; [done|]. cbn [split_go].
  destruct (isWhiteSpace c).
  - apply (proj1 (split_go_front r)).
  - by apply front_nonempty_tail, (proj2 (split_go_front r)).
Qed.

Lemma split_go_nonempty b cur s : split_go b cur s ≠ [].
Proof.
  revert b cur; induction s as [|c r IH]; intros b cur; cbn [split_go]; [done|].
  destruct (isWhiteSpace c); [destruct b|]; try done; apply IH.
Qed.

Lemma wordCount_pos s : (0 < wordCount s)%nat.
Proof.
  unfold wordCount, split_ws. pose proof (split_go_nonempty false [] s).
  destruct (split_go false [] s); [done|simpl; lia].
Qed.

(** ** Windows *)

Lemma slice_window {A} (l : list A) (i : nat) (w : Z) :
  0 < w →
  slice l (Z.of_nat i) (Z.of_nat i + w) = take (Z.to_nat w) (drop i l).
Proof.
  intros Hw. unfold slice, relativeIndex.
  destruct (decide (Z.of_nat i < 0)) as [|_]; [lia|].
  destruct (decide (Z.of_nat i + w < 0)) as [|_]; [lia|].
  destruct (decide (i ≤ length l)%nat) as [Hi|Hi].
  - rewrite (Z.min_l (Z.of_nat i)) by lia. rewrite Nat2Z.id.
    destruct (decide (Z.of_nat i + w ≤ Z.of_nat (length l))) as [Hj|Hj].
    + rewrite Z.min_l by lia. f_equal. lia.
    + rewrite Z.min_r by lia.
      rewrite !take_ge; [done| |]; rewrite length_drop; lia.
  - rewrite (Z.min_r (Z.of_nat i)) by lia. rewrite Nat2Z.id.
    rewrite !drop_ge by lia. by rewrite !take_nil.
Qed.

Lemma slice_prefix {A} (l : list A) (n : Z) :
  0 ≤ n → slice l 0 n = take (Z.to_nat n) l.
Proof.
  intros Hn. unfold slice, relativeIndex.
  rewrite (decide_False (P := 0 < 0)) by lia.
  rewrite (decide_False (P := n < 0)) by lia.
  rewrite (Z.min_l 0) by lia. change (Z.to_nat 0) with 0%nat. cbn [drop].
  destruct (decide (n ≤ Z.of_nat (length l))) as [Hl|Hl].
  - rewrite Z.min_l by lia. f_equal. lia.
  - rewrite Z.min_r by lia. rewrite (take_ge l (Z.to_nat n)) by lia.
    apply take_ge. lia.
Qed.

Lemma slice_nil {A} (i j : Z) : slice (@nil A) i j = [].
Proof. unfold slice. by rewrite drop_nil, take_nil. Qed.

Lemma windows_go_enough {A} (n f1 f2 : nat) (l : list A) :
  (0 < n)%nat → (length l ≤ f1)%nat → (length l ≤ f2)%nat →
  windows_go f1 n l = windows_go f2 n l.
Proof.
  intros Hn. revert f2 l; induction f1 as [|f1 IH]; intros f2 l H1 H2.
  - destruct l; [|simpl in H1; lia]. by destruct f2.
  - destruct f2 as [|f2]; [destruct l; [done|simpl in H2; lia]|].
    destruct l as [|x l]; [done|]. cbn [windows_go]. f_equal.
    apply IH; rewrite length_drop; simpl in *; lia.
Qed.

Lemma windows_cons {A} (n : nat) (l : list A) :
  (0 < n)%nat → l ≠ [] →
  windows n l = take n l :: windows n (drop n l).
Proof.
  intros Hn Hl. unfold windows. destruct l as [|x l]; [done|].
  cbn [length windows_go]. f_equal.
  apply windows_go_enough; [done| |done].
  rewrite length_drop. simpl. lia.
Qed.

Lemma windows_nil {A} (n : nat) : windows n (@nil A) = [].
Proof. done. Qed.

(** The windows partition the sequence. *)
Lemma windows_concat {A} (n : nat) (l : list A) :
  (0 < n)%nat → concat (windows n l) = l.
Proof.
  intros Hn. unfold windows. generalize (le_n (length l)).
  generalize (length l) at 2 3 as f. intros f; revert l.
  induction f as [|f IH]; intros l Hl.
  - by destruct l; [|simpl in Hl; lia].
  - destruct l as [|x l]; [done|]. cbn [windows_go concat].
    rewrite IH; [apply take_drop|]. rewrite length_drop. simpl in *. lia.
Qed.

Lemma windows_go_elem {A} (f n : nat) (l s : list A) :
  s ∈ windows_go f n l → ∃ k, s = take n (drop k l) ∧ s ≠ [] ∨ (n = 0)%nat.
Proof.
  revert l; induction f as [|f IH]; intros l; cbn [windows_go].
  - by intros ?%elem_of_nil.
  - destruct l as [|x l]; [by intros ?%elem_of_nil|].
    intros [->|Hs]%elem_of_cons.
    + exists 0%nat. destruct n; [by right|by left].
    + apply IH in Hs as [k [[-> Hne]| ->]]; [|by exists 0%nat; right].
      exists (n + k)%nat. left. by rewrite drop_drop in *.
Qed.

Lemma windows_elem_pieces (n : nat) (l s : list jsstring) :
  (0 < n)%nat → pieces l → s ∈ windows n l →
  pieces s ∧ s ≠ [] ∧ (length s ≤ n)%nat.
Proof.
  intros Hn Hl Hs. apply windows_go_elem in Hs as [k [[-> Hne]| ->]]; [|lia].
  split; [by apply pieces_take, pieces_drop|]. split; [done|].
  rewrite length_take. lia.
Qed.

(** ** The loop of [chunkText] *)

Lemma chunkText_loop_run (f : nat) words (w : Z) (i : nat) chunks :
  0 < w → (length (drop i words) ≤ f)%nat →
  chunkText_loop (S f) words w (Z.of_nat i) chunks
  = Some (chunks ++ ((λ s, join s [SPACE]) <$>
            filter (λ s, (20 < length s)%nat)
                   (windows_go f (Z.to_nat w) (drop i words)))).
Proof.
  intros Hw. revert i chunks; induction f as [|f IH]; intros i chunks Hf.
  - cbn [chunkText_loop windows_go]. rewrite length_drop in Hf.
    rewrite decide_False by lia.
    by rewrite filter_nil, fmap_nil, (right_id_L [] (++)).
  - rewrite length_drop in Hf.
    change (chunkText_loop (S (S f)) words w (Z.of_nat i) chunks)
      with (if decide (Z.of_nat i < Z.of_nat (length words)) then
              chunkText_loop (S f) words w (Z.of_nat i + w)
                (if decide (20 < Z.of_nat (length
                      (slice words (Z.of_nat i) (Z.of_nat i + w))))
                 then chunks ++ [join (slice words (Z.of_nat i)
                                         (Z.of_nat i + w)) [SPACE]]
                 else chunks)
            else Some chunks).
    destruct (decide (Z.of_nat i < Z.of_nat (length words))) as [Hi|Hi].
    + rewrite slice_window by done.
      replace (Z.of_nat i + w) with (Z.of_nat (i + Z.to_nat w)) by lia.
      rewrite IH by (rewrite length_drop; lia).
      destruct (drop i words) as [|x rest] eqn:E.
      { apply (f_equal length) in E. rewrite length_drop in E.
        simpl in E. lia. }
      cbn [windows_go]. rewrite <-E, drop_drop, filter_cons.
      destruct (decide (20 < Z.of_nat (length (take (Z.to_nat w) (drop i words)))));
        [rewrite decide_True by lia|rewrite decide_False by lia].
      * by rewrite fmap_cons, <-(assoc_L (++)).
      * done.
    + rewrite drop_ge by lia. cbn [windows_go].
      by rewrite filter_nil, fmap_nil, (right_id_L [] (++)).
Qed.

(** With [wordsPerChunk ≤ 0] the index never passes the length: no amount
    of fuel is enough. *)
Lemma chunkText_loop_diverges (fuel : nat) words (w i : Z) chunks :
  w ≤ 0 → i < Z.of_nat (length words) →
  chunkText_loop fuel words w i chunks = None.
Proof.
  intros Hw. revert i chunks; induction fuel as [|f IH]; intros i chunks Hi.
  - done.
  - cbn [chunkText_loop]. rewrite decide_True by done. apply IH. lia.
Qed.

(** A run that ends gives the same array under any larger fuel. *)
Lemma chunkText_loop_fuel (fuel : nat) text (w : Z) :
  0 < w → (length (split_ws text) < fuel)%nat →
  chunkText_loop fuel (split_ws text) w 0 [] = chunkText text w.
Proof.
  intros Hw Hf. unfold chunkText. destruct fuel as [|f]; [lia|].
  change 0 with (Z.of_nat 0).
  rewrite !(chunkText_loop_run _ _ _ 0%nat) by (rewrite ?drop_0; lia).
  do 4 f_equal. apply windows_go_enough; rewrite ?drop_0; lia.
Qed.

Lemma chunkText_kept text (w : Z) :
  0 < w → chunkText text w = Some (keptWindows (Z.to_nat w) (split_ws text)).
Proof.
  intros Hw. unfold chunkText. change 0 with (Z.of_nat 0).
  by rewrite (chunkText_loop_run _ _ _ 0%nat) by (rewrite ?drop_0; lia).
Qed.

Lemma chunkText_None text (w : Z) : chunkText text w = None ↔ w ≤ 0.
Proof.
  split.
  - intros H. destruct (decide (w ≤ 0)) as [|Hw]; [done|].
    rewrite chunkText_kept in H by lia. done.
  - intros Hw. apply chunkText_loop_diverges; [done|].
    pose proof (wordCount_pos text). unfold wordCount in *. lia.
Qed.

Lemma keptWindows_wordCount (n : nat) words c :
  (0 < n)%nat → pieces words → c ∈ keptWindows n words →
  (20 < wordCount c ≤ n)%nat.
Proof.
  intros Hn Hp (s & -> & Hs)%list_elem_of_fmap.
  apply list_elem_of_filter in Hs as [Hlen Hs].
  apply (windows_elem_pieces n) in Hs as (Hps & Hne & Hle); [|done..].
  unfold wordCount. rewrite split_join by done. lia.
Qed.

(** ** The tokenizer *)

Lemma lowerUnit_not_upper c x :
  x ∈ lowerUnit c → ¬ (0x41 ≤ x ≤ 0x5A)%N.
Proof.
  unfold lowerUnit. repeat case_bool_decide;
    rewrite ?elem_of_cons, ?elem_of_nil; intros Hx; lia.
Qed.

Lemma toLowerCase_not_upper s :
  Forall (λ x, ¬ (0x41 ≤ x ≤ 0x5A)%N) (toLowerCase s).
Proof.
  apply Forall_forall. intros x (c & Hx & _)%list_elem_of_bind.
  by apply lowerUnit_not_upper in Hx.
Qed.

Lemma inTokenClass_lower c :
  ¬ (0x41 ≤ c ≤ 0x5A)%N → inTokenClass c = inSpecClass c.
Proof.
  intros Hc. unfold inTokenClass, inSpecClass.
  rewrite (bool_decide_eq_false_2 _ Hc).
  destruct (bool_decide (0x61 ≤ c ≤ 0x7A)%N),
    (bool_decide (0x30 ≤ c ≤ 0x39)%N),
    (bool_decide (c ∈ classLetters)), (isWhiteSpace c); done.
Qed.

Lemma tokenize_refines str : tokenize str = tokenize_spec str.
Proof.
  unfold tokenize, tokenize_spec.
  replace ((λ c, if inTokenClass c then c else SPACE) <$> toLowerCase str)
    with ((λ c, if inSpecClass c then c else SPACE) <$> toLowerCase str).
  - apply list_filter_iff. intros w. lia.
  - apply Forall_fmap_ext. eapply Forall_impl; [apply toLowerCase_not_upper|].
    intros c Hc. simpl. by rewrite inTokenClass_lower.
Qed.

Lemma tokenize_long str : Forall (λ t, (3 ≤ length t)%nat) (tokenize str).
Proof.
  apply Forall_forall. intros t [Ht _]%list_elem_of_filter. lia.
Qed.

(** ** Scoring *)

Lemma scoreChunk_fold (setQ : gset jsstring) (P : jsstring → Prop)
    `{!∀ t, Decision (P t)} (acc : Z) chunkTokens :
  (∀ t, t ∈ setQ ↔ P t) →
  foldl (λ score t, if decide (t ∈ setQ) then score + 1 else score)
        acc chunkTokens
  = acc + Z.of_nat (length (filter P chunkTokens)).
Proof.
  intros HP. revert acc; induction chunkTokens as [|t l IH]; intros acc.
  - simpl. lia.
  - cbn [foldl]. rewrite IH, filter_cons.
    destruct (decide (t ∈ setQ)) as [Hin|Hin].
    + rewrite decide_True by by apply HP. simpl. lia.
    + rewrite decide_False by by rewrite <-HP. lia.
Qed.

Lemma scoreChunk_count questionTokens chunkTokens :
  scoreChunk questionTokens chunkTokens
  = Z.of_nat (length (filter (λ t, t ∈ questionTokens) chunkTokens)).
Proof.
  unfold scoreChunk.
  rewrite (scoreChunk_fold _ (λ t, t ∈ questionTokens)); [lia|].
  intros t. apply elem_of_list_to_set.
Qed.

Lemma scoredChunks_score srv question :
  score <$> scoredChunks srv question
  = (λ ch, Z.of_nat (overlap question (text ch))) <$> CHUNKS srv.
Proof.
  unfold scoredChunks. rewrite <-list_fmap_compose. apply list_fmap_ext.
  intros i ch _. simpl. apply scoreChunk_count.
Qed.

Lemma scoredChunks_chunk srv question :
  chunk <$> scoredChunks srv question = CHUNKS srv.
Proof.
  unfold scoredChunks. rewrite <-list_fmap_compose.
  rewrite <-(list_fmap_id (CHUNKS srv)) at 2. by apply list_fmap_ext.
Qed.

Lemma scoredChunks_nonneg srv question :
  Forall (λ r, 0 ≤ score r) (scoredChunks srv question).
Proof.
  apply Forall_forall. intros r (ch & -> & _)%list_elem_of_fmap.
  simpl. rewrite scoreChunk_count. lia.
Qed.

(** ** Sorting *)

Lemma sort_insert_perm {A} (cmp : A → A → Z) x l :
  sort_insert cmp x l ≡ₚ x :: l.
Proof.
  induction l as [|y l IH]; [done|]. cbn [sort_insert].
  destruct (decide (cmp x y ≤ 0)); [done|]. by rewrite IH, Permutation_swap.
Qed.

Lemma sort_perm {A} (cmp : A → A → Z) l : sort cmp l ≡ₚ l.
Proof.
  induction l as [|x l IH]; [done|]. unfold sort in *. cbn [foldr].
  by rewrite sort_insert_perm, IH.
Qed.

Lemma sort_insert_descending x l :
  scoreDescending l → scoreDescending (sort_insert byScoreDesc x l).
Proof.
  unfold scoreDescending. induction l as [|y l IH]; intros Hl.
  - repeat constructor.
  - cbn [sort_insert]. apply StronglySorted_inv in Hl as [Hl Hy].
    unfold byScoreDesc at 1. destruct (decide (score y - score x ≤ 0)) as [Hc|Hc].
    + constructor; [by constructor|]. constructor; [lia|].
      eapply Forall_impl; [exact Hy|]. intros z Hz. simpl in *. lia.
    + constructor; [by apply IH|].
      rewrite sort_insert_perm. constructor; [lia|done].
Qed.

Lemma sort_descending l : scoreDescending (sort byScoreDesc l).
Proof.
  induction l as [|x l IH]; [constructor|].
  by apply sort_insert_descending.
Qed.

(** An element only moves past elements of a different score. *)
Lemma sort_insert_stable (s : Z) x l :
  filter (λ r, score r = s) (sort_insert byScoreDesc x l)
  = filter (λ r, score r = s) (x :: l).
Proof.
  induction l as [|y l IH]; [done|]. cbn [sort_insert].
  unfold byScoreDesc at 1. destruct (decide (score y - score x ≤ 0)); [done|].
  rewrite filter_cons, IH, !filter_cons.
  destruct (decide (score y = s)), (decide (score x = s)); done || lia.
Qed.

Lemma sort_stable (s : Z) l :
  filter (λ r, score r = s) (sort byScoreDesc l)
  = filter (λ r, score r = s) l.
Proof.
  induction l as [|x l IH]; [done|]. unfold sort in *. cbn [foldr].
  by rewrite sort_insert_stable, !filter_cons, IH.
Qed.

Lemma descending_head l top :
  scoreDescending l → head l = Some top → Forall (λ r, score r ≤ score top) l.
Proof.
  intros Hl Hh. destruct l as [|x l]; [done|]. injection Hh as ->.
  apply StronglySorted_inv in Hl as [_ Hx]. constructor; [lia|done].
Qed.

Lemma fallbackTest_all_zero l :
  l ≠ [] → Forall (λ r, 0 ≤ score r) l →
  fallbackTest (sort byScoreDesc l) = true ↔ Forall (λ r, score r = 0) l.
Proof.
  intros Hne Hpos. unfold fallbackTest. rewrite bool_decide_eq_true.
  pose proof (sort_descending l) as Hs.
  pose proof (sort_perm byScoreDesc l) as Hp.
  split.
  - intros Hh. destruct (head (sort byScoreDesc l)) as [top|] eqn:E; [|done].
    injection Hh as Htop.
    pose proof (descending_head _ _ Hs E) as Hle. rewrite Hp in Hle.
    rewrite Forall_forall in *. intros r Hr.
    specialize (Hle r Hr). specialize (Hpos r Hr). simpl in *. lia.
  - intros Hz. rewrite <-Hp in Hz.
    destruct (sort byScoreDesc l) as [|top l'] eqn:E.
    + apply Permutation_nil_l in Hp. done.
    + simpl. apply Forall_cons in Hz as [-> _]. done.
Qed.

(** ** Retrieval *)

Lemma retrieve_state srv question topK :
  (retrieveRelevantChunks srv question topK).2 = srv.
Proof. unfold retrieveRelevantChunks. by destruct (fallbackTest _). Qed.

Lemma scoredChunks_nil srv question :
  scoredChunks srv question = [] ↔ CHUNKS srv = [].
Proof.
  unfold scoredChunks. split; [apply fmap_nil_inv|by intros ->].
Qed.

(** On an empty array [scored[0]?.score] is [undefined]: the test fails. *)
Lemma fallbackTest_nil : fallbackTest [] = false.
Proof. by vm_compute. Qed.

Lemma retrieve_fallback srv question topK :
  CHUNKS srv ≠ [] →
  Forall (λ r, score r = 0) (scoredChunks srv question) →
  (retrieveRelevantChunks srv question topK).1
  = Plain <$> slice (CHUNKS srv) 0 topK.
Proof.
  intros Hne Hz. unfold retrieveRelevantChunks, sortedChunks.
  assert (fallbackTest (sort byScoreDesc (scoredChunks srv question)) = true)
    as ->; [|done].
  apply fallbackTest_all_zero; [|apply scoredChunks_nonneg|done].
  by rewrite scoredChunks_nil.
Qed.

Lemma Plain_no_score (l : list Chunk) :
  Forall (λ r, r_score r = None) (Plain <$> l).
Proof. apply Forall_fmap, Forall_forall. done. Qed.

(** ** Language detection *)

(** The letters of [detectLanguage] are those of the character class of
    [tokenize]. *)
Lemma trChars_classLetters u : u ∈ trChars ↔ u ∈ classLetters.
Proof.
  unfold trChars, classLetters. rewrite !elem_of_cons, !elem_of_nil. tauto.
Qed.

Lemma startsWith_nil s : startsWith s [] = true.
Proof. by destruct s. Qed.

Lemma includes_unit s u : includes s [u] = true ↔ u ∈ s.
Proof.
  induction s as [|x s IH].
  - simpl. split; [done|by intros ?%elem_of_nil].
  - cbn [includes startsWith]. rewrite startsWith_nil, andb_true_r.
    rewrite orb_true_iff, bool_decide_eq_true, IH, elem_of_cons.
    split; (intros [Hx|Hx]; [left; congruence|by right]).
Qed.

Lemma includes_pair s hi lo : hi ∉ s → includes s [hi; lo] = false.
Proof.
  induction s as [|x s IH]; [done|].
  intros [Hx Hs]%not_elem_of_cons. cbn [includes startsWith].
  rewrite bool_decide_eq_false_2 by congruence. by apply IH.
Qed.

Lemma trChars_not_surrogate hi : (0xD800 ≤ hi ≤ 0xDBFF)%N → hi ∉ trChars.
Proof.
  intros Hhi. unfold trChars. rewrite !not_elem_of_cons.
  repeat split; try lia. apply not_elem_of_nil.
Qed.

Lemma spread_shape s :
  let shaped (l : list jsstring) :=
    Forall (λ c, (∃ u, c = [u])
                 ∨ ∃ hi lo, c = [hi; lo] ∧ (0xD800 ≤ hi ≤ 0xDBFF)%N) l in
  shaped (spread s) ∧ ∀ c, shaped (spread (c :: s)).
Proof.
  induction s as [|d r [IH1 IH2]]; simpl.
  - split; [constructor|]. intros c. repeat constructor. eauto.
  - split; [apply IH2|]. intros c.
    destruct (bool_decide (0xD800 ≤ c ≤ 0xDBFF)%N) eqn:Ec; simpl.
    + destruct (bool_decide (0xDC00 ≤ d ≤ 0xDFFF)%N); simpl.
      * constructor; [|done]. right. exists c, d.
        by apply bool_decide_eq_true in Ec.
      * constructor; [eauto|apply IH2].
    + constructor; [eauto|apply IH2].
Qed.

Lemma includes_accented s c :
  c ∈ spread s → includes trChars c = true ↔ accented c.
Proof.
  intros Hc. pose proof (proj1 (spread_shape s)) as Hs. simpl in Hs.
  rewrite Forall_forall in Hs. unfold accented.
  destruct (Hs c Hc) as [[u ->]|(hi & lo & -> & Hhi)].
  - rewrite includes_unit. split.
    + intros Hu. by exists u.
    + by intros (u' & Hu & [= ->]).
  - rewrite includes_pair by by apply trChars_not_surrogate.
    split; [done|]. by intros (u & _ & [=]).
Qed.

Lemma detectLanguage_tr text :
  detectLanguage text = lit "tr" ↔ ∃ c, c ∈ spread text ∧ accented c.
Proof.
  unfold detectLanguage.
  destruct (existsb _ _) eqn:E.
  - apply existsb_exists in E as (c & Hc%list_elem_of_In & Hi).
    split; [|done]. intros _. exists c. split; [done|].
    by apply (includes_accented text).
  - split; [done|]. intros (c & Hc & Ha).
    apply (includes_accented text) in Ha; [|done].
    assert (existsb (λ c, includes trChars c) (spread text) = true) as Ht.
    { apply existsb_exists. exists c. by rewrite <-list_elem_of_In. }
    congruence.
Qed.

Lemma detectLanguage_en text :
  detectLanguage text = lit "en" ↔ ¬ ∃ c, c ∈ spread text ∧ accented c.
Proof.
  rewrite <-detectLanguage_tr. unfold detectLanguage.
  destruct (existsb _ _); split; done.
Qed.

(** ** Index construction *)

Lemma forEach_push_imap file fileChunks idx chunks :
  forEach_push file fileChunks idx chunks
  = chunks ++ imap (λ i c, {| text := c;
                              source := file ++ lit "#" ++ decimal (idx + i) |})
                   fileChunks.
Proof.
  revert idx chunks; induction fileChunks as [|c rest IH]; intros idx chunks.
  - simpl. by rewrite (right_id_L [] (++)).
  - cbn [forEach_push]. rewrite IH, imap_cons, <-(assoc_L (++)).
    rewrite Nat.add_0_r. simpl. do 2 f_equal.
    apply imap_ext. intros i x _. simpl. do 4 f_equal. lia.
Qed.

Lemma buildIndex_file_contribution fs st file :
  ∃ out, buildIndex_file fs st file
         = Some (st.1 ++ contribution fs file, out).
Proof.
  unfold buildIndex_file, contribution, supported, decode.
  destruct (decide (_ ∨ _)) as [Hs|Hs].
  - destruct (decide (toLowerCase (NodePath.extname file) = lit ".txt"));
      unfold loadTxtFile, loadDocxFile.
    all: match goal with |- context [match ?d with Some _ => _ | None => _ end] =>
           destruct d as [raw|] end.
    all: try (eexists; by rewrite (right_id_L [] (++))).
    all: destruct (decide (normalizeText raw = []));
      [eexists; by rewrite (right_id_L [] (++))|].
    all: rewrite chunkText_kept by done; cbn [mbind option_bind];
      rewrite forEach_push_imap; eexists; reflexivity.
  - destruct st. eexists. by rewrite (right_id_L [] (++)).
Qed.

Lemma buildIndex_loop_contributions fs files st :
  ∃ out, buildIndex_loop fs files st
         = Some (st.1 ++ (files ≫= contribution fs), out).
Proof.
  revert st; induction files as [|file rest IH]; intros st.
  - exists st.2. simpl. rewrite (right_id_L [] (++)). by destruct st.
  - cbn [buildIndex_loop].
    destruct (buildIndex_file_contribution fs st file) as [out ->].
    cbn [mbind option_bind].
    destruct (IH (st.1 ++ contribution fs file, out)) as [out' ->].
    exists out'. by rewrite bind_cons, (assoc_L (++)).
Qed.

Lemma retrieve_fallback_prefix srv question topK :
  0 ≤ topK →
  Forall (λ r, score r = 0) (scoredChunks srv question) →
  (retrieveRelevantChunks srv question topK).1
  = Plain <$> take (Z.to_nat topK) (CHUNKS srv).
Proof.
  intros Hk Hz. destruct (decide (CHUNKS srv = [])) as [He|Hne].
  - unfold retrieveRelevantChunks, sortedChunks, scoredChunks.
    rewrite He, take_nil. cbn. by rewrite fallbackTest_nil, slice_nil.
  - rewrite retrieve_fallback by done. by rewrite slice_prefix.
Qed.

(** The fallback law as the code has it: the first [topK] entries of the
    index, in index order, none of them with a [score]. *)
Lemma retrieve_fallback_unscored srv question topK :
  0 ≤ topK →
  Forall (λ r, score r = 0) (scoredChunks srv question) →
  let result := (retrieveRelevantChunks srv question topK).1 in
  result = Plain <$> take (Z.to_nat topK) (CHUNKS srv)
  ∧ Forall (λ r, r_score r = None) result.
Proof.
  intros Hk Hz result. subst result.
  rewrite retrieve_fallback_prefix by done. split; [done|].
  apply Plain_no_score.
Qed.

Lemma windows_length_le {A} (n : nat) (l s : list A) :
  s ∈ windows n l → (length s ≤ length l)%nat.
Proof.
  unfold windows. generalize (length l) at 1 as f. intros f; revert l.
  induction f as [|f IH]; intros l; cbn [windows_go].
  - by intros ?%elem_of_nil.
  - destruct l as [|x l]; [by intros ?%elem_of_nil|].
    intros [->|Hs]%elem_of_cons.
    + rewrite length_take. lia.
    + apply IH in Hs. rewrite length_drop in Hs. lia.
Qed.

Lemma keptWindows_short (n : nat) words :
  (length words ≤ 20)%nat → keptWindows n words = [].
Proof.
  intros Hl. unfold keptWindows.
  replace (filter _ (windows n words)) with (@nil (list jsstring)); [done|].
  symmetry. apply elem_of_nil_inv. intros s [Hs Hin]%list_elem_of_filter.
  apply windows_length_le in Hin. lia.
Qed.

Lemma wordCount_join l : l ≠ [] → pieces l → wordCount (join l [SPACE]) = length l.
Proof. intros Hne Hp. unfold wordCount. by rewrite split_join. Qed.

Lemma keptWindows_two_and_rest (n r : nat) words :
  (20 < n)%nat → (0 < r ≤ n)%nat → length words = (n + n + r)%nat →
  pieces words →
  ∃ c1 c2 c3,
    wordCount c1 = n ∧ wordCount c2 = n ∧ wordCount c3 = r
    ∧ keptWindows n words = if decide (20 < r)%nat then [c1; c2; c3] else [c1; c2].
Proof.
  intros Hn Hr Hlen Hp.
  assert (∀ k, (k < length words)%nat → drop k words ≠ []) as Hd.
  { intros k Hk E. apply (f_equal length) in E. rewrite length_drop in E.
    simpl in E. lia. }
  exists (join (take n words) [SPACE]),
         (join (take n (drop n words)) [SPACE]),
         (join (take n (drop (n + n) words)) [SPACE]).
  assert (∀ k m, m = (n `min` (length words - k))%nat →
                 length (take n (drop k words)) = m) as Hw.
  { intros k m ->. by rewrite length_take, length_drop. }
  assert (∀ k m, length (take n (drop k words)) = m → (0 < m)%nat →
                 wordCount (join (take n (drop k words)) [SPACE]) = m) as Hc.
  { intros k m Hm Hpos. rewrite wordCount_join; [done| |].
    - intros E. rewrite E in Hm. simpl in Hm. lia.
    - by apply pieces_take, pieces_drop. }
  pose proof (Hw 0%nat n) as H1. pose proof (Hw n n) as H2.
  pose proof (Hw (n + n)%nat r) as H3.
  rewrite drop_0 in H1.
  specialize (H1 ltac:(lia)). specialize (H2 ltac:(lia)).
  specialize (H3 ltac:(lia)).
  split; [rewrite <-(drop_0 words) at 1; apply Hc; [by rewrite drop_0|lia]|].
  split; [apply Hc; [done|lia]|]. split; [apply Hc; [done|lia]|].
  unfold keptWindows.
  rewrite (windows_cons n words) by (try lia; rewrite <-(drop_0 words); apply Hd; lia).
  rewrite (windows_cons n (drop n words)) by (try lia; apply Hd; lia).
  rewrite drop_drop.
  rewrite (windows_cons n (drop (n + n) words)) by (try lia; apply Hd; lia).
  rewrite drop_drop, (drop_ge words (n + n + n)) by lia.
  rewrite windows_nil, !filter_cons, filter_nil, H1, H2, H3.
  rewrite !(decide_True (P := (20 < n)%nat)) by done.
  by destruct (decide (20 < r)%nat).
Qed.

(** * The claims *)

(** C1 (fallback law), evaluated on the code.  In the index that
    [buildIndex] builds from the sample directory no chunk shares a token
    with the question [vitamin dosage], and
    [retrieveRelevantChunks(question, 4)] returns the first entries of the
    index in original order; but each returned record is the index entry
    itself: reading its [score] gives [undefined], not 0. *)
Theorem fallback_records_carry_no_score :
  let question := lit "vitamin dosage" in
  let result := (retrieveRelevantChunks sampleServer question 4).1 in
  buildIndex sampleFs {| CHUNKS := []; console := [] |} = Some sampleServer
  ∧ Forall (λ r, score r = 0) (scoredChunks sampleServer question)
  ∧ result = Plain <$> take 4 (CHUNKS sampleServer)
  ∧ r_source <$> result = [lit "notes.TXT#0"]
  ∧ r_score <$> result = [None]
  ∧ r_score <$> result ≠ [Some 0].
Proof.
  intros question result. split; [by vm_compute|].
  assert (Forall (λ r, score r = 0) (scoredChunks sampleServer question)) as Hz.
  { apply Forall_forall. intros r Hr.
    assert (score r ∈ score <$> scoredChunks sampleServer question) as Hs
      by by apply list_elem_of_fmap_2.
    assert (score <$> scoredChunks sampleServer question = [0]) as E
      by (by vm_compute).
    rewrite E, !elem_of_cons, elem_of_nil in Hs.
    by destruct Hs as [?|?]. }
  split; [exact Hz|].
  assert (result = Plain <$> take 4 (CHUNKS sampleServer)) as ->
    by (by apply (retrieve_fallback_prefix sampleServer question 4)).
  repeat split; [reflexivity..|discriminate].
Qed.

(** C2.  The score of a chunk is the number of positions of the token
    sequence of its text whose token is among the tokens of the question
    (repetitions counted), for every index and question; and on the index
    of scenario 3, [retrieveRelevantChunks("sleep routine tips", 1)] is
    exactly one record, with source [a#0] and score 2. *)
Theorem score_counts_overlapping_tokens srv question :
  (∀ chunk_text,
     scoreChunk (tokenize question) (tokenize chunk_text)
     = Z.of_nat (overlap question chunk_text))
  ∧ chunk <$> scoredChunks srv question = CHUNKS srv
  ∧ score <$> scoredChunks srv question
    = (λ ch, Z.of_nat (overlap question (text ch))) <$> CHUNKS srv
  ∧ (let result :=
       (retrieveRelevantChunks scenario3 (lit "sleep routine tips") 1).1 in
     result = [WithScore {| chunk := {| text := lit "metabolism sleep routine";
                                        source := lit "a#0" |};
                            score := 2 |}]
     ∧ r_source <$> result = [lit "a#0"]
     ∧ r_score <$> result = [Some 2]).
Proof.
  split; [intros; apply scoreChunk_count|].
  split; [apply scoredChunks_chunk|].
  split; [apply scoredChunks_score|].
  by vm_compute.
Qed.

(** C3.  A call of [retrieveRelevantChunks] leaves the server state as it
    was, so a second call with the same question and [topK] returns the
    same sequence; and [scored.sort] orders the scored chunks by descending
    score keeping, among the chunks of any one score, the order of the
    index. *)
Theorem retrieve_deterministic_stable srv question topK :
  let first := retrieveRelevantChunks srv question topK in
  let second := retrieveRelevantChunks first.2 question topK in
  first.1 = second.1 ∧ first.2 = srv ∧ second.2 = srv
  ∧ sortedChunks srv question ≡ₚ scoredChunks srv question
  ∧ scoreDescending (sortedChunks srv question)
  ∧ ∀ s : Z, filter (λ r, score r = s) (sortedChunks srv question)
             = filter (λ r, score r = s) (scoredChunks srv question).
Proof.
  intros first second. subst second first.
  rewrite !retrieve_state. repeat split.
  - apply sort_perm.
  - apply sort_descending.
  - intros s. apply sort_stable.
Qed.

(** Bounds on the pieces of [split(/\s+/)], for every text and every
    [wordsPerChunk]: whatever [chunkText] returns, each chunk has more than
    20 pieces and at most [wordsPerChunk]; for a positive [wordsPerChunk] it
    does return, namely the windows of more than 20 pieces, joined, every
    other window being discarded; so a text of at most 20 pieces yields no
    chunk.  (With [wordsPerChunk ≤ 0] the loop never ends, see
    [chunkText_None].) *)
Lemma chunkText_piece_counts text (wordsPerChunk : Z) :
  (∀ chunks, chunkText text wordsPerChunk = Some chunks →
     Forall (λ c, (20 < wordCount c)%nat
                  ∧ Z.of_nat (wordCount c) ≤ wordsPerChunk) chunks)
  ∧ (0 < wordsPerChunk →
     chunkText text wordsPerChunk
     = Some (keptWindows (Z.to_nat wordsPerChunk) (split_ws text)))
  ∧ (0 < wordsPerChunk → (wordCount text ≤ 20)%nat →
     chunkText text wordsPerChunk = Some []).
Proof.
  split; [|split].
  - intros chunks Hc. destruct (decide (wordsPerChunk ≤ 0)) as [Hw|Hw].
    { apply (chunkText_None text) in Hw. congruence. }
    rewrite chunkText_kept in Hc by lia. injection Hc as <-.
    apply Forall_forall. intros c Hin.
    apply keptWindows_wordCount in Hin; [lia|lia|apply split_ws_pieces].
  - apply chunkText_kept.
  - intros Hw Hl. rewrite chunkText_kept by done.
    by rewrite keptWindows_short.
Qed.

(** C5.  With [wordsPerChunk = 350], a text of exactly 720 words yields
    exactly 2 chunks of 350 words each, and a text of exactly 721 words
    yields exactly 3 chunks of 350, 350 and 21 words, in this order. *)
Theorem chunkText_720_721 text :
  (wordCount text = 720%nat →
   ∃ c1 c2, chunkText text 350 = Some [c1; c2]
            ∧ wordCount c1 = 350%nat ∧ wordCount c2 = 350%nat)
  ∧ (wordCount text = 721%nat →
     ∃ c1 c2 c3, chunkText text 350 = Some [c1; c2; c3]
                 ∧ wordCount c1 = 350%nat ∧ wordCount c2 = 350%nat
                 ∧ wordCount c3 = 21%nat).
Proof.
  rewrite chunkText_kept by lia. unfold wordCount at 1 4.
  pose proof (split_ws_pieces text) as Hp.
  generalize dependent (split_ws text). intros words Hp.
  change (Z.to_nat 350) with 350%nat.
  split; intros Hlen.
  - destruct (keptWindows_two_and_rest 350 20 words) as (c1 & c2 & c3 & H1 & H2 & _ & ->);
      [lia|lia|by rewrite Hlen|done|].
    exists c1, c2. by rewrite decide_False by lia.
  - destruct (keptWindows_two_and_rest 350 21 words) as (c1 & c2 & c3 & H1 & H2 & H3 & ->);
      [lia|lia|by rewrite Hlen|done|].
    exists c1, c2, c3. by rewrite decide_True by lia.
Qed.

Lemma chunkText_720_721_witness :
  normalizeText (wordsText 720) = wordsText 720
  ∧ wordCount (wordsText 720) = 720%nat
  ∧ wordCount (wordsText 721) = 721%nat
  ∧ (∃ c1 c2, chunkText (wordsText 720) 350 = Some [c1; c2]
              ∧ wordCount c1 = 350%nat ∧ wordCount c2 = 350%nat)
  ∧ (∃ c1 c2 c3, chunkText (wordsText 721) 350 = Some [c1; c2; c3]
                 ∧ wordCount c1 = 350%nat ∧ wordCount c2 = 350%nat
                 ∧ wordCount c3 = 21%nat).
Proof.
  split; [by vm_compute|]. split; [by vm_compute|]. split; [by vm_compute|].
  split.
  - apply (proj1 (chunkText_720_721 (wordsText 720))). by vm_compute.
  - apply (proj2 (chunkText_720_721 (wordsText 721))). by vm_compute.
Defined.

(** C6.  For every string, [tokenize] is the pipeline of the
    specification: lower-case, blank every code unit outside [a-z], [0-9],
    white space and the accented letters, split on white space, drop the
    tokens of length at most 2; every token it returns has length at
    least 3; and [tokenize("Hello, World! 123")] is
    [["hello", "world", "123"]]. *)
Theorem tokenize_pipeline str :
  tokenize str = tokenize_spec str
  ∧ Forall (λ t, (3 ≤ length t)%nat) (tokenize str)
  ∧ tokenize (lit "Hello, World! 123") = [lit "hello"; lit "world"; lit "123"].
Proof.
  split; [apply tokenize_refines|]. split; [apply tokenize_long|].
  by vm_compute.
Qed.

(** C7.  On an empty index [retrieveRelevantChunks] returns the empty
    sequence, for every question and every [topK] (4 among them); the model
    has no failing path that the call could take. *)
Theorem retrieve_empty_index out question topK :
  let srv := {| CHUNKS := []; console := out |} in
  retrieveRelevantChunks srv question topK = ([], srv)
  ∧ retrieveRelevantChunks srv question DEFAULT_TOP_K = ([], srv).
Proof.
  intros srv.
  assert (∀ k, retrieveRelevantChunks srv question k = ([], srv)) as H; [|done].
  intros k. unfold retrieveRelevantChunks, sortedChunks, scoredChunks.
  cbn. by rewrite fallbackTest_nil, slice_nil.
Qed.

(** C8.  [detectLanguage] returns [tr] exactly when some character of the
    text is one of the accented letters [çğıöşüÇĞİÖŞÜ], and [en] exactly
    when none is; [Nasıl uyuyabilirim] is classified [tr] and
    [How can I sleep] is classified [en]. *)
Theorem detectLanguage_accented text :
  (detectLanguage text = lit "tr" ↔ ∃ c, c ∈ spread text ∧ accented c)
  ∧ (detectLanguage text = lit "en" ↔ ¬ ∃ c, c ∈ spread text ∧ accented c)
  ∧ detectLanguage nasil_uyuyabilirim = lit "tr"
  ∧ detectLanguage (lit "How can I sleep") = lit "en".
Proof.
  split; [apply detectLanguage_tr|]. split; [apply detectLanguage_en|].
  by vm_compute.
Qed.

(** C9.  On a non-empty index, the first chunk after the descending sort
    has score 0 if and only if every chunk has score 0; so the test of the
    fallback rule, which reads the top score only, succeeds exactly when no
    chunk has a token in common with the question. *)
Theorem top_zero_iff_all_zero srv question :
  CHUNKS srv ≠ [] →
  ((∃ top, head (sortedChunks srv question) = Some top ∧ score top = 0)
   ↔ Forall (λ r, score r = 0) (scoredChunks srv question))
  ∧ (fallbackTest (sortedChunks srv question) = true
     ↔ ∀ ch, ch ∈ CHUNKS srv → overlap question (text ch) = 0%nat).
Proof.
  intros Hne.
  assert (fallbackTest (sortedChunks srv question) = true
          ↔ Forall (λ r, score r = 0) (scoredChunks srv question)) as Hf.
  { apply fallbackTest_all_zero; [|apply scoredChunks_nonneg].
    by rewrite scoredChunks_nil. }
  split.
  - rewrite <-Hf. unfold fallbackTest. rewrite bool_decide_eq_true.
    destruct (head (sortedChunks srv question)) as [top|]; simpl.
    + split; [by intros (? & [= <-] & ->)|]. intros [= Hz]. by exists top.
    + split; [by intros (? & [=] & _)|done].
  - rewrite Hf, <-(Forall_fmap score (λ s, s = 0)), scoredChunks_score.
    rewrite Forall_fmap, Forall_forall.
    split; intros H ch Hch; specialize (H ch Hch); simpl in *; lia.
Qed.

Lemma top_zero_iff_all_zero_witness :
  CHUNKS scenario3 ≠ []
  ∧ ((∃ top, head (sortedChunks scenario3 (lit "vitamin dosage")) = Some top
             ∧ score top = 0)
     ↔ Forall (λ r, score r = 0)
              (scoredChunks scenario3 (lit "vitamin dosage")))
  ∧ (fallbackTest (sortedChunks scenario3 (lit "vitamin dosage")) = true
     ↔ ∀ ch, ch ∈ CHUNKS scenario3 →
             overlap (lit "vitamin dosage") (text ch) = 0%nat).
Proof.
  split; [discriminate|].
  apply (top_zero_iff_all_zero scenario3 (lit "vitamin dosage")). discriminate.
Defined.

(** C10.  Whatever subset of the files fails to decode, [buildIndex] runs
    to completion, and the index it installs is the concatenation, in the
    order of the directory listing, of the records
    [{text, source: file#idx}] of the supported files that decode and
    normalise to a non-empty text; a supported file whose decoding fails
    leaves the array of chunks as it was and the loop goes on.  In the
    sample directory the failing [bad.txt] is reported and skipped, and
    [notes.TXT] after it is indexed. *)
Theorem buildIndex_skips_failures fs srv :
  (∃ srv', buildIndex fs srv = Some srv'
           ∧ CHUNKS srv' = expectedIndex fs)
  ∧ (∀ st file, supported file → decode fs file = None →
       ∃ out, buildIndex_file fs st file = Some (st.1, out))
  ∧ buildIndex sampleFs {| CHUNKS := []; console := [] |} = Some sampleServer.
Proof.
  split; [|split; [|by vm_compute]].
  - unfold buildIndex, expectedIndex.
    destruct (buildIndex_loop_contributions fs (readdirSync fs)
                ([], console srv)) as [out ->].
    cbn [mbind option_bind]. eexists. split; [reflexivity|]. done.
  - intros st file Hs Hd.
    destruct (buildIndex_file_contribution fs st file) as [out ->].
    exists out. unfold contribution. rewrite decide_True by done.
    by rewrite Hd, (right_id_L [] (++)).
Qed.

Lemma buildIndex_skips_failures_witness :
  supported (lit "bad.txt")
  ∧ decode sampleFs (lit "bad.txt") = None
  ∧ ∃ out, buildIndex_file sampleFs ([], []) (lit "bad.txt") = Some ([], out).
Proof.
  assert (supported (lit "bad.txt")) as Hs by (left; by vm_compute).
  split; [exact Hs|]. split; [by vm_compute|].
  apply (proj1 (proj2 (buildIndex_skips_failures sampleFs sampleServer))
               ([], []) (lit "bad.txt") Hs).
  by vm_compute.
Defined.

(** * Further properties *)

(** ** The normaliser *)

Lemma join_cons w l sep :
  l ≠ [] → join (w :: l) sep = w ++ sep ++ join l sep.
Proof. by destruct l. Qed.

Lemma collapse_join s :
  (∀ cur, reverse cur ++ collapse_ws false s
          = join (split_go false cur s) [SPACE])
  ∧ collapse_ws true s = join (split_go true [] s) [SPACE].
Proof.
  induction s as [|c r [IH1 IH2]]; cbn [collapse_ws split_go].
  - split; [intros cur; cbn [join]; by rewrite (right_id_L [] (++))|done].
  - destruct (isWhiteSpace c) eqn:E.
    + split; [|done]. intros cur.
      rewrite join_cons by apply split_go_nonempty. by rewrite <-IH2.
    + split.
      * intros cur. rewrite <-IH1, reverse_cons, <-(assoc_L (++)). done.
      * by rewrite <-(IH1 [c]).
Qed.

Lemma collapse_ws_join s : collapse_ws false s = join (split_ws s) [SPACE].
Proof. apply (proj1 (collapse_join s) []). Qed.

Lemma trimStart_allws s x : allws s → trimStart (s ++ x) = trimStart x.
Proof.
  induction 1 as [|c s Hc _ IH]; [done|]. cbn [app trimStart]. by rewrite Hc.
Qed.

Lemma trimStart_nonws c s : isWhiteSpace c = false → trimStart (c :: s) = c :: s.
Proof. intros H. cbn [trimStart]. by rewrite H. Qed.

Lemma trim_solid lead m trail :
  allws lead → allws trail → solid m → trim (lead ++ m ++ trail) = m.
Proof.
  intros Hl Ht Hm. unfold trim. rewrite trimStart_allws by done.
  destruct Hm as [->|[(c & m' & -> & Hc) (m0 & d & Hm & Hd)]].
  - cbn [app]. rewrite <-(right_id_L [] (++) trail), trimStart_allws by done.
    done.
  - cbn [app]. rewrite trimStart_nonws by done.
    change (c :: m' ++ trail) with ((c :: m') ++ trail).
    rewrite reverse_app, trimStart_allws by by apply Forall_reverse.
    rewrite Hm, reverse_app. cbn [reverse app]. rewrite reverse_singleton.
    cbn [app]. rewrite trimStart_nonws by done.
    change (d :: reverse m0) with ([d] ++ reverse m0).
    by rewrite reverse_app, reverse_involutive, reverse_singleton.
Qed.

Lemma join_solid l :
  Forall wsfree l → Forall (λ w, w ≠ []) l → solid (join l [SPACE]).
Proof.
  intros Hf Hn. destruct l as [|w l]; [by left|]. right. split.
  - apply Forall_cons in Hn as [Hw _]. apply Forall_cons in Hf as [Hfw _].
    destruct w as [|c w]; [done|]. unfold wsfree in Hfw.
    apply Forall_cons in Hfw as [Hc _].
    exists c. destruct l; cbn [join app]; eauto.
  - revert w Hf Hn. induction l as [|w' l IH]; intros w Hf Hn.
    + apply Forall_cons in Hn as [Hw _]. apply Forall_cons in Hf as [Hfw _].
      cbn [join]. destruct w as [|c w _] using rev_ind; [done|].
      unfold wsfree in Hfw.
      apply Forall_app in Hfw as [_ Hc]. apply Forall_cons in Hc as [Hc _].
      eauto.
    + apply Forall_cons in Hn as [_ Hn]. apply Forall_cons in Hf as [_ Hf].
      destruct (IH w' Hf Hn) as (m0 & c & Hm & Hc).
      rewrite join_cons by done. rewrite Hm.
      exists (w ++ [SPACE] ++ m0), c. by rewrite <-!(assoc_L (++)).
Qed.

Lemma join_filter_front l :
  Forall wsfree l → front_nonempty l →
  ∃ trail, allws trail
    ∧ join l [SPACE] = join (filter (λ w, w ≠ []) l) [SPACE] ++ trail.
Proof.
  induction l as [|w l IH]; intros Hf Hn.
  - exists []. split; [constructor|done].
  - apply Forall_cons in Hf as [Hw Hf]. destruct l as [|w' l].
    + exists []. split; [constructor|]. rewrite filter_cons, filter_nil.
      destruct (decide (w ≠ [])) as [|Hw']; [by rewrite (right_id_L [] (++))|].
      by apply dec_stable in Hw' as ->.
    + destruct Hn as [Hne Hn]. destruct (IH Hf Hn) as (trail & Ht & E).
      rewrite join_cons, E by done. rewrite (filter_cons _ w).
      rewrite decide_True by done.
      destruct (filter (λ w, w ≠ []) (w' :: l)) as [|f fs] eqn:Ef.
      * exists ([SPACE] ++ trail). split; [|by cbn].
        apply Forall_app. split; [by repeat constructor|done].
      * exists trail. split; [done|].
        rewrite (join_cons w (f :: fs)) by done. by rewrite <-!(assoc_L (++)).
Qed.

Lemma join_pieces l :
  pieces l →
  ∃ lead trail, allws lead ∧ allws trail
    ∧ join l [SPACE] = lead ++ join (filter (λ w, w ≠ []) l) [SPACE] ++ trail.
Proof.
  intros [Hf Hn]. destruct l as [|w l].
  - exists [], []. repeat split; constructor.
  - destruct w as [|c w].
    + apply Forall_cons in Hf as [_ Hf]. cbn [tail] in Hn.
      destruct (join_filter_front l Hf Hn) as (trail & Ht & E).
      rewrite filter_cons, decide_False by (by intros ?).
      destruct l as [|w' l].
      * exists [], []. repeat split; constructor.
      * exists [SPACE], trail. split; [by repeat constructor|]. split; [done|].
        rewrite join_cons by done. by rewrite E.
    + destruct (join_filter_front ((c :: w) :: l)) as (trail & Ht & E);
        [done|by apply front_nonempty_cons|].
      exists [], trail. split; [constructor|]. by split.
Qed.

Lemma words_wsfree s : Forall wsfree (words s).
Proof.
  apply Forall_forall. intros w [_ Hw]%list_elem_of_filter.
  pose proof (proj1 (split_ws_pieces s)) as H. rewrite Forall_forall in H. auto.
Qed.

Lemma words_nonempty s : Forall (λ w, w ≠ []) (words s).
Proof. apply Forall_forall. by intros w [Hw _]%list_elem_of_filter. Qed.

Lemma normalizeText_join_words text :
  normalizeText text = join (words text) [SPACE].
Proof.
  unfold normalizeText. rewrite collapse_ws_join.
  destruct (join_pieces (split_ws text) (split_ws_pieces text))
    as (lead & trail & Hl & Ht & ->).
  apply trim_solid; [done..|].
  apply join_solid; [apply words_wsfree|apply words_nonempty].
Qed.

Lemma nonempty_front l : Forall (λ w : jsstring, w ≠ []) l → front_nonempty l.
Proof.
  induction 1 as [|w l Hw _ IH]; [done|]. by apply front_nonempty_cons.
Qed.

Lemma filter_all {A} (P : A → Prop) `{!∀ x, Decision (P x)} (l : list A) :
  Forall P l → filter P l = l.
Proof.
  induction 1 as [|x l Hx _ IH]; [done|]. by rewrite filter_cons_True, IH.
Qed.

Lemma words_join l :
  Forall wsfree l → Forall (λ w, w ≠ []) l → words (join l [SPACE]) = l.
Proof.
  intros Hf Hn. unfold words. destruct l as [|w l]; [done|].
  rewrite split_join; [| done |].
  - by apply filter_all.
  - split; [done|]. apply front_nonempty_tail. by apply nonempty_front.
Qed.

Lemma split_go_concat s :
  (∀ cur, concat (split_go false cur s)
          = reverse cur ++ filter (λ c, isWhiteSpace c = false) s)
  ∧ concat (split_go true [] s) = filter (λ c, isWhiteSpace c = false) s.
Proof.
  induction s as [|c r [IH1 IH2]]; cbn [split_go].
  - split; [|done]. intros cur. cbn. by rewrite !(right_id_L [] (++)).
  - rewrite filter_cons. destruct (isWhiteSpace c) eqn:E.
    + rewrite decide_False by done. split; [|done].
      intros cur. cbn [concat]. by rewrite IH2.
    + rewrite decide_True by done. split.
      * intros cur. by rewrite IH1, reverse_cons, <-(assoc_L (++)).
      * by rewrite IH1.
Qed.

Lemma concat_filter_nonempty (l : list jsstring) :
  concat (filter (λ w, w ≠ []) l) = concat l.
Proof.
  induction l as [|w l IH]; [done|]. rewrite filter_cons.
  destruct (decide (w ≠ [])) as [|Hw]; cbn [concat]; [by rewrite IH|].
  apply dec_stable in Hw as ->. by rewrite IH.
Qed.

Lemma words_concat s :
  concat (words s) = filter (λ c, isWhiteSpace c = false) s.
Proof.
  unfold words. rewrite concat_filter_nonempty.
  apply (proj1 (split_go_concat s) []).
Qed.

Lemma words_nil_iff s : words s = [] ↔ allws s.
Proof.
  split.
  - intros H. pose proof (words_concat s) as Hc. rewrite H in Hc.
    symmetry in Hc. apply Forall_forall. intros c Hin.
    destruct (isWhiteSpace c) eqn:E; [done|].
    assert (c ∈ filter (λ c, isWhiteSpace c = false) s) as Hf
      by by apply list_elem_of_filter.
    rewrite Hc in Hf. by apply elem_of_nil in Hf.
  - intros Ha. pose proof (words_concat s) as Hc.
    assert (filter (λ c, isWhiteSpace c = false) s = []) as Hf.
    { apply elem_of_nil_inv. intros c [Hc1 Hc2]%list_elem_of_filter.
      unfold allws in Ha. rewrite Forall_forall in Ha.
      specialize (Ha c Hc2). congruence. }
    rewrite Hf in Hc. destruct (words s) as [|w l] eqn:E; [done|].
    pose proof (words_nonempty s) as Hn. rewrite E in Hn.
    apply Forall_cons in Hn as [Hw _]. destruct w; [done|discriminate].
Qed.

Lemma join_nil_iff (l : list jsstring) sep :
  Forall (λ w, w ≠ []) l → join l sep = [] ↔ l = [].
Proof.
  intros Hn. split; [|by intros ->].
  destruct l as [|w l]; [done|]. apply Forall_cons in Hn as [Hw _].
  destruct w as [|c w]; [done|]. by destruct l.
Qed.

Lemma filter_nonws_join (l : list jsstring) :
  filter (λ c, isWhiteSpace c = false) (join l [SPACE])
  = filter (λ c, isWhiteSpace c = false) (concat l).
Proof.
  induction l as [|w l IH]; [done|]. destruct l as [|w' l].
  - cbn [join concat]. by rewrite (right_id_L [] (++)).
  - rewrite join_cons by done. rewrite (concat_cons w).
    rewrite !filter_app, IH. by rewrite filter_singleton_False.
Qed.

Lemma no_ws_pair_word w y :
  wsfree w → no_ws_pair y → no_ws_pair (w ++ y).
Proof.
  induction 1 as [|c w Hc _ IH]; [done|]. intros Hy. specialize (IH Hy).
  cbn [app no_ws_pair]. destruct (w ++ y); [done|].
  split; [|done]. intros [? _]. congruence.
Qed.

Lemma no_ws_pair_space y :
  (∀ c r, y = c :: r → isWhiteSpace c = false) → no_ws_pair y →
  no_ws_pair (SPACE :: y).
Proof.
  intros Hh Hy. cbn [no_ws_pair]. destruct y as [|c r]; [done|].
  split; [|done]. intros [_ ?]. rewrite (Hh c r) in *; done.
Qed.

Lemma join_no_ws_pair l :
  Forall wsfree l → Forall (λ w, w ≠ []) l → no_ws_pair (join l [SPACE]).
Proof.
  induction l as [|w l IH]; intros Hf Hn; [done|].
  apply Forall_cons in Hf as [Hw Hf]. apply Forall_cons in Hn as [Hne Hn].
  destruct l as [|w' l].
  - cbn [join]. rewrite <-(right_id_L [] (++) w). by apply no_ws_pair_word.
  - rewrite join_cons by done. apply no_ws_pair_word; [done|].
    apply no_ws_pair_space; [|by apply IH].
    intros c r. apply join_head_nonspace; [done|by apply nonempty_front].
Qed.

Lemma join_ws_units l :
  Forall wsfree l →
  Forall (λ c, isWhiteSpace c = true → c = SPACE) (join l [SPACE]).
Proof.
  induction l as [|w l IH]; intros Hf; [constructor|].
  apply Forall_cons in Hf as [Hw Hf].
  assert (Forall (λ c, isWhiteSpace c = true → c = SPACE) w) as Hw'.
  { eapply Forall_impl; [exact Hw|]. simpl. congruence. }
  destruct l as [|w' l]; [done|]. rewrite join_cons by done.
  apply Forall_app. split; [done|]. apply Forall_cons. split; [done|].
  by apply IH.
Qed.

(** ** The chunker *)

Lemma windows_go_nil {A} (f n : nat) : windows_go f n (@nil A) = [].
Proof. by destruct f. Qed.

Lemma windows_go_members {A} (f n : nat) (l s : list A) (x : A) :
  s ∈ windows_go f n l → x ∈ s → x ∈ l.
Proof.
  revert l; induction f as [|f IH]; intros l; cbn [windows_go].
  - by intros ?%elem_of_nil.
  - destruct l as [|y l]; [by intros ?%elem_of_nil|].
    intros [->|Hs]%elem_of_cons Hx.
    + by eapply subseteq_take.
    + eapply subseteq_drop. by apply IH.
Qed.

Lemma windows_go_small {A} (f n : nat) (l : list A) :
  (n ≤ 20)%nat → filter (λ s, (20 < length s)%nat) (windows_go f n l) = [].
Proof.
  intros Hn. revert l; induction f as [|f IH]; intros l; [done|].
  destruct l as [|x l]; [done|]. cbn [windows_go].
  rewrite filter_cons_False by (rewrite length_take; lia). apply IH.
Qed.

Lemma windows_go_kept_concat {A} (f n : nat) (l : list A) :
  (20 < n)%nat → (length l ≤ f)%nat →
  ∃ k, (k ≤ length l)%nat ∧ (length l - k ≤ 20)%nat
       ∧ concat (filter (λ s, (20 < length s)%nat) (windows_go f n l))
         = take k l.
Proof.
  intros Hn. revert l; induction f as [|f IH]; intros l Hf.
  - destruct l; [|simpl in Hf; lia].
    exists 0%nat. repeat split; simpl; lia || done.
  - destruct l as [|x l]; [exists 0%nat; repeat split; simpl; lia || done|].
    cbn [windows_go]. set (l0 := x :: l) in *.
    destruct (IH (drop n l0)) as (k & Hk1 & Hk2 & Hk3).
    { rewrite length_drop. subst l0. simpl in *. lia. }
    rewrite length_drop in Hk1, Hk2.
    rewrite filter_cons. destruct (decide (20 < length (take n l0))%nat) as [Hb|Hb].
    + exists ((n + k) `min` length l0)%nat. cbn [concat].
      rewrite Hk3, take_take_drop. split; [lia|]. split; [lia|].
      destruct (decide (n + k ≤ length l0)%nat).
      * by rewrite Nat.min_l by lia.
      * rewrite Nat.min_r by lia. by rewrite !take_ge by lia.
    + rewrite length_take in Hb. exists 0%nat.
      rewrite drop_ge, windows_go_nil by lia.
      split; [lia|]. split; [lia|done].
Qed.

Lemma windows_go_kept_count {A} (f n : nat) (l : list A) :
  (20 < n)%nat → (length l ≤ f)%nat →
  length (filter (λ s, (20 < length s)%nat) (windows_go f n l))
  = (length l / n + if decide (20 < length l mod n)%nat then 1 else 0)%nat.
Proof.
  intros Hn. revert l; induction f as [|f IH]; intros l Hf.
  - destruct l; [|simpl in Hf; lia]. cbn [length windows_go].
    rewrite Nat.Div0.div_0_l, Nat.Div0.mod_0_l. by rewrite decide_False by lia.
  - destruct l as [|x l].
    { cbn [length windows_go].
      rewrite Nat.Div0.div_0_l, Nat.Div0.mod_0_l. by rewrite decide_False by lia. }
    cbn [windows_go]. set (l0 := x :: l) in *.
    assert (length (drop n l0) ≤ f)%nat as Hd
      by (rewrite length_drop; subst l0; simpl in *; lia).
    specialize (IH _ Hd). rewrite length_drop in IH.
    rewrite filter_cons, length_take.
    destruct (decide (n ≤ length l0)%nat) as [Hle|Hlt].
    + rewrite decide_True by lia. cbn [length]. rewrite IH.
      assert (length l0 mod n = (length l0 - n) mod n)%nat as ->.
      { replace (length l0) with (length l0 - n + 1 * n)%nat at 1 by lia.
        apply Nat.Div0.mod_add. }
      assert (length l0 / n = 1 + (length l0 - n) / n)%nat as ->; [|lia].
      replace (length l0) with (1 * n + (length l0 - n))%nat at 1 by lia.
      apply Nat.div_add_l. lia.
    + rewrite (drop_ge l0) by lia. rewrite windows_go_nil, filter_nil.
      rewrite Nat.div_small, Nat.mod_small by lia.
      rewrite Nat.min_r by lia.
      by destruct (decide (20 < length l0)%nat).
Qed.

Lemma split_join_kept (n : nat) wordsList :
  (0 < n)%nat → pieces wordsList →
  split_ws <$> keptWindows n wordsList
  = filter (λ s, (20 < length s)%nat) (windows n wordsList).
Proof.
  intros Hn Hp. unfold keptWindows. rewrite <-list_fmap_compose.
  rewrite <-(list_fmap_id (filter _ _)) at 2.
  apply list_fmap_ext. intros i s Hs. simpl.
  apply list_elem_of_lookup_2 in Hs.
  apply list_elem_of_filter in Hs as [Hlen Hs].
  apply (windows_elem_pieces n) in Hs as (Hps & Hne & _); [|done..].
  by apply split_join.
Qed.

(** ** The chunker on a text without white space at its ends *)

Lemma trimStart_length s : (length (trimStart s) ≤ length s)%nat.
Proof.
  induction s as [|c s IH]; [done|]. cbn [trimStart].
  destruct (isWhiteSpace c); simpl in *; lia.
Qed.

Lemma trimStart_same_length s c r :
  length (trimStart s) = length s → s = c :: r → isWhiteSpace c = false.
Proof.
  intros Hlen ->. cbn [trimStart] in Hlen.
  destruct (isWhiteSpace c); [|done].
  pose proof (trimStart_length r). simpl in Hlen. lia.
Qed.

Lemma trim_fixed_solid s : trim s = s → solid s.
Proof.
  intros H. destruct (decide (s = [])) as [->|Hne]; [by left|]. right.
  pose proof (trimStart_length s) as L1.
  pose proof (trimStart_length (reverse (trimStart s))) as L2.
  pose proof (f_equal length H) as Hlen. unfold trim in Hlen.
  rewrite length_reverse in Hlen. rewrite length_reverse in L2.
  assert (∀ c r, s = c :: r → isWhiteSpace c = false) as Hhead.
  { intros c r. apply trimStart_same_length. lia. }
  assert (trimStart s = s) as Hs.
  { destruct s as [|c r]; [done|]. apply trimStart_nonws. by eapply Hhead. }
  rewrite Hs in *. split.
  - destruct s as [|c r]; [done|]. exists c, r. split; [done|]. by eapply Hhead.
  - destruct s as [|d m0 _] using rev_ind; [done|]. exists m0, d.
    split; [done|].
    apply (trimStart_same_length (reverse (m0 ++ [d])) d (reverse m0));
      [by rewrite length_reverse|].
    by rewrite reverse_app.
Qed.

Lemma collapse_snoc b m d :
  isWhiteSpace d = false → collapse_ws b (m ++ [d]) = collapse_ws b m ++ [d].
Proof.
  intros Hd. revert b; induction m as [|c m IH]; intros b.
  - cbn [app collapse_ws]. by rewrite Hd.
  - cbn [app collapse_ws]. destruct (isWhiteSpace c); [destruct b|];
      by rewrite IH.
Qed.

Lemma solid_collapse s : solid s → solid (collapse_ws false s).
Proof.
  intros [->|[(c & m' & -> & Hc) (m0 & d & Hm & Hd)]]; [by left|]. right.
  split.
  - cbn [collapse_ws]. rewrite Hc. eauto.
  - rewrite Hm, collapse_snoc by done. eauto.
Qed.

Lemma trimmed_split s : trim s = s → s ≠ [] → split_ws s = words s.
Proof.
  intros Ht Hne. pose proof (trim_fixed_solid s Ht) as Hs.
  assert (join (split_ws s) [SPACE] = join (words s) [SPACE]) as E.
  { rewrite <-normalizeText_join_words, <-collapse_ws_join.
    unfold normalizeText. symmetry.
    rewrite <-(right_id_L [] (++) (collapse_ws false s)) at 1.
    apply (trim_solid [] _ []); [constructor..|by apply solid_collapse]. }
  apply (f_equal split_ws) in E.
  rewrite split_join in E by (apply split_go_nonempty || apply split_ws_pieces).
  rewrite E. apply split_join.
  - rewrite words_nil_iff. intros Ha.
    destruct Hs as [->|[(c & m' & -> & Hc) _]]; [done|].
    apply Forall_cons in Ha as [? _]. congruence.
  - split; [apply words_wsfree|].
    apply front_nonempty_tail, nonempty_front, words_nonempty.
Qed.

(** On such a text the pieces are the words. *)
Lemma wordCount_words s :
  trim s = s → s ≠ [] → wordCount s = length (words s).
Proof. intros Ht Hne. unfold wordCount. by rewrite trimmed_split. Qed.

Lemma normalizeText_trimmed text : trim (normalizeText text) = normalizeText text.
Proof.
  rewrite normalizeText_join_words.
  rewrite <-(right_id_L [] (++) (join (words text) [SPACE])) at 1.
  apply (trim_solid [] _ []); [constructor..|].
  apply join_solid; [apply words_wsfree|apply words_nonempty].
Qed.

Lemma chunkText_kept_words text (w : Z) :
  trim text = text → 0 < w →
  chunkText text w = Some (keptWindows (Z.to_nat w) (words text)).
Proof.
  intros Ht Hw. rewrite chunkText_kept by done.
  destruct (decide (text = [])) as [->|Hne].
  - by rewrite !keptWindows_short by (simpl; lia).
  - by rewrite trimmed_split.
Qed.

Lemma keptWindows_words_count (n : nat) text c :
  (0 < n)%nat → c ∈ keptWindows n (words text) →
  (20 < length (words c) ≤ n)%nat.
Proof.
  intros Hn (s & -> & Hs)%list_elem_of_fmap.
  apply list_elem_of_filter in Hs as [Hlen Hs].
  assert (Forall wsfree s ∧ Forall (λ w, w ≠ []) s) as [Hf Hne].
  { pose proof (words_wsfree text) as H1. pose proof (words_nonempty text) as H2.
    rewrite Forall_forall in H1, H2. split; apply Forall_forall; intros w Hw;
      [apply H1|apply H2]; unfold windows in Hs;
        by eapply windows_go_members. }
  rewrite words_join by done. split; [done|].
  apply windows_go_elem in Hs as [k [[-> _]| ->]]; [|lia].
  rewrite length_take. lia.
Qed.

(** C4, as the claim states it, fails on a text that begins with white
    space.  [split(/\s+/)] leaves an empty first piece, so a space followed
    by 20 words makes a window of 21 pieces: [chunkText] returns the whole
    text as a chunk, a chunk of 20 words, from a document of 20 words. *)
Lemma chunkText_leading_space_counterexample :
  chunkText leadingSpaceText 350 = Some [leadingSpaceText]
  ∧ words leadingSpaceText = replicate 20 (lit "word")
  ∧ ¬ (∀ text wordsPerChunk chunks,
         chunkText text wordsPerChunk = Some chunks →
         Forall (λ c, (20 < length (words c))%nat
                      ∧ Z.of_nat (length (words c)) ≤ wordsPerChunk) chunks)
  ∧ ¬ (∀ text wordsPerChunk,
         0 < wordsPerChunk → (length (words text) ≤ 20)%nat →
         chunkText text wordsPerChunk = Some []).
Proof.
  assert (chunkText leadingSpaceText 350 = Some [leadingSpaceText]) as Hrun
    by (by vm_compute).
  assert (words leadingSpaceText = replicate 20 (lit "word")) as Hwords
    by (by vm_compute).
  split; [exact Hrun|]. split; [exact Hwords|]. split.
  - intros H. specialize (H _ _ _ Hrun).
    apply Forall_cons in H as [[H _] _]. rewrite Hwords in H.
    simpl in H. lia.
  - intros H. specialize (H leadingSpaceText 350).
    rewrite Hwords, Hrun in H. specialize (H ltac:(lia) ltac:(simpl; lia)).
    discriminate H.
Qed.

(** C4, amended.  For every text that neither begins nor ends with white
    space (every normalised text is one) and every [wordsPerChunk]:
    whatever [chunkText] returns, each chunk has more than 20 words and at
    most [wordsPerChunk]; for a positive [wordsPerChunk] it does return,
    namely the windows of more than 20 words, joined, every other window
    being discarded; so a text of at most 20 words yields no chunk.  (With
    [wordsPerChunk ≤ 0] the loop never ends, see [chunkText_None].) *)
Theorem chunkText_word_bounds text (wordsPerChunk : Z) :
  trim text = text →
  (∀ chunks, chunkText text wordsPerChunk = Some chunks →
     Forall (λ c, (20 < length (words c))%nat
                  ∧ Z.of_nat (length (words c)) ≤ wordsPerChunk) chunks)
  ∧ (0 < wordsPerChunk →
     chunkText text wordsPerChunk
     = Some (keptWindows (Z.to_nat wordsPerChunk) (words text)))
  ∧ (0 < wordsPerChunk → (length (words text) ≤ 20)%nat →
     chunkText text wordsPerChunk = Some []).
Proof.
  intros Ht. split; [|split].
  - intros chunks Hc. destruct (decide (wordsPerChunk ≤ 0)) as [Hw|Hw].
    { apply (chunkText_None text) in Hw. congruence. }
    rewrite chunkText_kept_words in Hc by (done || lia). injection Hc as <-.
    apply Forall_forall. intros c Hin.
    apply keptWindows_words_count in Hin; lia.
  - by apply chunkText_kept_words.
  - intros Hw Hl. rewrite chunkText_kept_words by done.
    by rewrite keptWindows_short.
Qed.

Lemma chunkText_word_bounds_witness :
  trim (wordsText 30) = wordsText 30
  ∧ normalizeText (wordsText 30) = wordsText 30
  ∧ chunkText (wordsText 30) 350 = Some [wordsText 30]
  ∧ Forall (λ c, (20 < length (words c))%nat
                 ∧ Z.of_nat (length (words c)) ≤ 350) [wordsText 30]
  ∧ trim (wordsText 20) = wordsText 20
  ∧ 0 < 350 ∧ (length (words (wordsText 20)) ≤ 20)%nat
  ∧ chunkText (wordsText 20) 350 = Some [].
Proof.
  assert (trim (wordsText 30) = wordsText 30) as H30 by (by vm_compute).
  assert (trim (wordsText 20) = wordsText 20) as H20 by (by vm_compute).
  split; [exact H30|]. split; [by vm_compute|]. split; [by vm_compute|].
  split.
  - apply (proj1 (chunkText_word_bounds (wordsText 30) 350 H30)).
    by vm_compute.
  - split; [exact H20|]. split; [lia|]. split; [by vm_compute|].
    apply (proj2 (proj2 (chunkText_word_bounds (wordsText 20) 350 H20))).
    + lia.
    + by vm_compute.
Defined.

(** ** Properties of the normaliser and the chunker *)

(** X1.  [normalizeText] returns the words of the text joined by single
    spaces; the result has the same words as the text, and the same code
    units outside white space, in the same order. *)
Theorem normalizeText_joins_words text :
  normalizeText text = join (words text) [SPACE]
  ∧ words (normalizeText text) = words text
  ∧ filter (λ c, isWhiteSpace c = false) (normalizeText text)
    = filter (λ c, isWhiteSpace c = false) text.
Proof.
  split; [apply normalizeText_join_words|]. rewrite normalizeText_join_words.
  split.
  - apply words_join; [apply words_wsfree|apply words_nonempty].
  - by rewrite filter_nonws_join, words_concat, list_filter_filter_l.
Qed.

(** X2.  Normalising twice is normalising once. *)
Theorem normalizeText_idempotent text :
  normalizeText (normalizeText text) = normalizeText text.
Proof.
  rewrite (normalizeText_join_words (normalizeText text)).
  rewrite (normalizeText_join_words text) at 1.
  rewrite words_join; [|apply words_wsfree|apply words_nonempty].
  by rewrite <-normalizeText_join_words.
Qed.

(** X3.  [normalizeText] returns the empty string, which makes
    [buildIndex] skip the file, exactly for the texts that consist of white
    space only. *)
Theorem normalizeText_empty_iff text :
  normalizeText text = [] ↔ allws text.
Proof.
  rewrite normalizeText_join_words, <-words_nil_iff.
  apply join_nil_iff, words_nonempty.
Qed.

(** X4.  A normalised text neither begins nor ends with white space, has no
    two white-space code units in a row, and its only white-space code unit
    is U+0020. *)
Theorem normalizeText_shape text :
  let n := normalizeText text in
  solid n ∧ no_ws_pair n
  ∧ Forall (λ c, isWhiteSpace c = true → c = SPACE) n.
Proof.
  intros n. subst n. rewrite normalizeText_join_words.
  pose proof (words_wsfree text). pose proof (words_nonempty text).
  split; [by apply join_solid|]. split; [by apply join_no_ws_pair|].
  by apply join_ws_units.
Qed.

(** X5.  The loop of [chunkText] ends exactly for a positive
    [wordsPerChunk]: with [wordsPerChunk ≤ 0] it is still running after any
    number of iterations, and with [wordsPerChunk > 0] it returns within
    one iteration per word. *)
Theorem chunkText_terminates_iff text (wordsPerChunk : Z) :
  (wordsPerChunk ≤ 0 →
   ∀ fuel, chunkText_loop fuel (split_ws text) wordsPerChunk 0 [] = None)
  ∧ (0 < wordsPerChunk →
     ∀ fuel, (length (split_ws text) < fuel)%nat →
       chunkText_loop fuel (split_ws text) wordsPerChunk 0 []
       = Some (keptWindows (Z.to_nat wordsPerChunk) (split_ws text))).
Proof.
  split.
  - intros Hw fuel. apply chunkText_loop_diverges; [done|].
    pose proof (wordCount_pos text). unfold wordCount in *. lia.
  - intros Hw fuel Hf. rewrite chunkText_loop_fuel by done.
    by apply chunkText_kept.
Qed.

Lemma chunkText_terminates_iff_witness :
  (-1 ≤ 0 ∧ chunkText_loop 50 (split_ws (wordsText 30)) (-1) 0 [] = None)
  ∧ (0 < 25 ∧ (length (split_ws (wordsText 30)) < 31)%nat
     ∧ chunkText_loop 31 (split_ws (wordsText 30)) 25 0 []
       = Some (keptWindows (Z.to_nat 25) (split_ws (wordsText 30)))).
Proof.
  split.
  - split; [lia|].
    apply (proj1 (chunkText_terminates_iff (wordsText 30) (-1))). lia.
  - split; [lia|]. split; [by vm_compute|].
    apply (proj2 (chunkText_terminates_iff (wordsText 30) 25)); [lia|].
    by vm_compute.
Defined.

(** X6.  With a [wordsPerChunk] between 1 and 20 no window is long enough
    to be kept: [chunkText] returns no chunk, whatever the text. *)
Theorem chunkText_small_windows text (wordsPerChunk : Z) :
  0 < wordsPerChunk ≤ 20 → chunkText text wordsPerChunk = Some [].
Proof.
  intros Hw. rewrite chunkText_kept by lia. unfold keptWindows, windows.
  rewrite windows_go_small by lia. done.
Qed.

Lemma chunkText_small_windows_witness :
  0 < 20 ≤ 20 ∧ chunkText (wordsText 30) 20 = Some [].
Proof.
  split; [lia|]. apply (chunkText_small_windows (wordsText 30) 20). lia.
Defined.

(** X7.  With [wordsPerChunk > 20] the chunks, read word by word, are the
    words of the text from the first on, in order; only a last window of at
    most 20 words is missing. *)
Theorem chunkText_covers_prefix text (wordsPerChunk : Z) :
  20 < wordsPerChunk →
  ∃ chunks k,
    chunkText text wordsPerChunk = Some chunks
    ∧ concat (split_ws <$> chunks) = take k (split_ws text)
    ∧ (k ≤ wordCount text)%nat ∧ (wordCount text - k ≤ 20)%nat.
Proof.
  intros Hw. rewrite chunkText_kept by lia.
  destruct (windows_go_kept_concat (length (split_ws text))
              (Z.to_nat wordsPerChunk) (split_ws text))
    as (k & Hk1 & Hk2 & Hk3); [lia|done|].
  eexists _, k. split; [reflexivity|].
  rewrite split_join_kept; [|lia|apply split_ws_pieces]. by repeat split.
Qed.

Lemma chunkText_covers_prefix_witness :
  20 < 25
  ∧ ∃ chunks k,
      chunkText (wordsText 30) 25 = Some chunks
      ∧ concat (split_ws <$> chunks) = take k (split_ws (wordsText 30))
      ∧ (k ≤ wordCount (wordsText 30))%nat
      ∧ (wordCount (wordsText 30) - k ≤ 20)%nat.
Proof.
  split; [lia|]. apply (chunkText_covers_prefix (wordsText 30) 25). lia.
Defined.

(** X8.  With [wordsPerChunk > 20], a text of [n] words that neither
    begins nor ends with white space gives [n / wordsPerChunk] chunks, and
    one more if the remainder exceeds 20 words. *)
Theorem chunkText_count_words text (wordsPerChunk : Z) :
  trim text = text → 20 < wordsPerChunk →
  ∃ chunks,
    chunkText text wordsPerChunk = Some chunks
    ∧ Z.of_nat (length chunks)
      = Z.of_nat (length (words text)) / wordsPerChunk
        + (if decide (20 < Z.of_nat (length (words text)) mod wordsPerChunk)
           then 1 else 0).
Proof.
  intros Ht Hw. rewrite chunkText_kept_words by (done || lia).
  eexists. split; [reflexivity|].
  unfold keptWindows, windows. rewrite length_fmap.
  rewrite windows_go_kept_count by (done || lia).
  set (n := length (words text)). set (w := Z.to_nat wordsPerChunk).
  assert (Z.of_nat n / wordsPerChunk = Z.of_nat (n / w)) as E1
    by (rewrite Nat2Z.inj_div; f_equal; lia).
  assert (Z.of_nat n mod wordsPerChunk = Z.of_nat (n mod w)) as E2
    by (rewrite Nat2Z.inj_mod; f_equal; lia).
  destruct (decide (20 < n mod w)%nat),
    (decide (20 < Z.of_nat n mod wordsPerChunk)); lia.
Qed.

Lemma chunkText_count_words_witness :
  trim (wordsText 60) = wordsText 60 ∧ 20 < 25
  ∧ length (words (wordsText 60)) = 60%nat
  ∧ ∃ chunks,
      chunkText (wordsText 60) 25 = Some chunks
      ∧ Z.of_nat (length chunks)
        = Z.of_nat (length (words (wordsText 60))) / 25
          + (if decide (20 < Z.of_nat (length (words (wordsText 60))) mod 25)
             then 1 else 0).
Proof.
  assert (trim (wordsText 60) = wordsText 60) as H by (by vm_compute).
  split; [exact H|]. split; [lia|]. split; [by vm_compute|].
  apply (chunkText_count_words (wordsText 60) 25 H). lia.
Defined.

(** ** The tokenizer, continued *)

Ltac parity_facts :=
  repeat match goal with
    | H : _ ∧ N.even _ = true |- _ =>
        let E := fresh "E" in
        let k := fresh "k" in
        destruct H as [H E]; apply N.even_spec in E as [k E]
    | H : _ ∧ N.odd _ = true |- _ =>
        let E := fresh "E" in
        let k := fresh "k" in
        destruct H as [H E]; apply N.odd_spec in E as [k E]
    end.

Lemma lowerUnit_no_upper_letter c x :
  x ∈ lowerUnit c → x ∉ [0x130; 0x11E; 0xDC; 0x15E; 0xD6; 0xC7]%N.
Proof.
  unfold lowerUnit. intros Hx Hu. rewrite !elem_of_cons, elem_of_nil in Hu.
  repeat case_bool_decide; rewrite ?elem_of_cons, ?elem_of_nil in Hx.
  all: try lia.
  all: destruct Hu as [->|[->|[->|[->|[->|[->|[]]]]]]]; try lia.
  all: try (destruct Hx as [Hx|[]]).
  all: try subst.
  all: try (parity_facts; lia).
  all: try match goal with
         | H : ¬ (_ ∧ N.even _ = true) |- _ =>
             apply H; split; [lia|reflexivity]
         | H : ¬ (_ ∧ N.odd _ = true) |- _ =>
             apply H; split; [lia|reflexivity]
         end.
Qed.


Lemma lowerUnit_token_unit c :
  isTokenUnit c = true ∨ isWhiteSpace c = true → lowerUnit c = [c].
Proof.
  unfold isTokenUnit, isWhiteSpace.
  rewrite !orb_true_iff, !bool_decide_eq_true, !elem_of_cons, elem_of_nil.
  intros H. unfold lowerUnit. repeat case_bool_decide; try done.
  all: exfalso; parity_facts; lia.
Qed.

Lemma toLowerCase_fixed s :
  Forall (λ c, lowerUnit c = [c]) s → toLowerCase s = s.
Proof.
  unfold toLowerCase. induction 1 as [|c s Hc _ IH]; [done|].
  by rewrite bind_cons, Hc, IH.
Qed.


Lemma isTokenUnit_class c : isTokenUnit c = true → inTokenClass c = true.
Proof.
  unfold isTokenUnit, inTokenClass, classLetters.
  rewrite !orb_true_iff, !bool_decide_eq_true, !elem_of_cons, !elem_of_nil.
  tauto.
Qed.

Lemma isWhiteSpace_class c : isWhiteSpace c = true → inTokenClass c = true.
Proof. unfold inTokenClass. intros ->. by rewrite !orb_true_r. Qed.

(** What [tokenize] splits: the lower-cased text with every code unit
    outside the class blanked. *)
Lemma tokenize_unfold str :
  tokenize str
  = filter (λ w, (2 < length w)%nat)
      (split_ws ((λ c, if inTokenClass c then c else SPACE)
                   <$> toLowerCase str)).
Proof. done. Qed.

Lemma blanked_units str c :
  c ∈ (λ c, if inTokenClass c then c else SPACE) <$> toLowerCase str →
  isWhiteSpace c = false → isTokenUnit c = true.
Proof.
  intros (x & -> & (y & Hx & _)%list_elem_of_bind)%list_elem_of_fmap Hws.
  destruct (inTokenClass x) eqn:E; [|done].
  pose proof (lowerUnit_not_upper _ _ Hx) as Hup.
  pose proof (lowerUnit_no_upper_letter _ _ Hx) as Hlet.
  unfold inTokenClass in E. rewrite Hws, orb_false_r in E.
  unfold isTokenUnit. unfold classLetters in E.
  rewrite !orb_true_iff, !bool_decide_eq_true in *.
  rewrite !elem_of_cons, !elem_of_nil in *. intuition lia.
Qed.

Lemma elem_of_concat_2 {A} (x : A) (l : list A) (ls : list (list A)) :
  l ∈ ls → x ∈ l → x ∈ concat ls.
Proof.
  intros Hl Hx. apply list_elem_of_In, in_concat.
  exists l. by rewrite <-!list_elem_of_In.
Qed.

Lemma split_ws_elem_units s w c :
  w ∈ split_ws s → c ∈ w → c ∈ s ∧ isWhiteSpace c = false.
Proof.
  intros Hw Hc. split.
  - assert (c ∈ concat (split_ws s)) as H
      by by apply (elem_of_concat_2 _ w).
    unfold split_ws in H. rewrite (proj1 (split_go_concat s) []) in H.
    cbn in H. by apply list_elem_of_filter in H as [_ ?].
  - pose proof (proj1 (split_ws_pieces s)) as Hf.
    rewrite Forall_forall in Hf. specialize (Hf w Hw).
    unfold wsfree in Hf. rewrite Forall_forall in Hf. auto.
Qed.

Lemma tokenize_units str :
  Forall (Forall (λ c, isTokenUnit c = true)) (tokenize str).
Proof.
  apply Forall_forall. intros t [_ Ht]%list_elem_of_filter.
  apply Forall_forall. intros c Hc.
  destruct (split_ws_elem_units _ _ _ Ht Hc) as [Hin Hws].
  by apply (blanked_units str).
Qed.

Lemma isTokenUnit_nonws c : isTokenUnit c = true → isWhiteSpace c = false.
Proof.
  unfold isTokenUnit, isWhiteSpace.
  rewrite !orb_true_iff, !bool_decide_eq_true, !elem_of_cons, elem_of_nil.
  intros H. repeat (apply orb_false_intro); apply bool_decide_eq_false; lia.
Qed.

Lemma tokenize_wsfree str : Forall wsfree (tokenize str).
Proof.
  eapply Forall_impl; [apply tokenize_units|]. intros t Ht.
  eapply Forall_impl; [exact Ht|]. apply isTokenUnit_nonws.
Qed.

(** Splitting around a run of white space, up to the empty pieces. *)
Section SplitApp.
Context (P : jsstring → Prop) `{!∀ w, Decision (P w)} (HP : ¬ P []).

Lemma split_go_resume_filter s :
  filter P (split_go true [] s) = filter P (split_go false [] s).
Proof.
  destruct s as [|c r]; [done|]. cbn [split_go].
  destruct (isWhiteSpace c); [|done]. cbn [reverse].
  by rewrite filter_cons_False.
Qed.

Lemma split_go_app_ws a w rest b cur :
  (b = true → cur = []) → isWhiteSpace w = true →
  filter P (split_go b cur (a ++ w :: rest))
  = filter P (split_go b cur a) ++ filter P (split_go false [] rest).
Proof.
  intros Hb Hw. revert b cur Hb; induction a as [|c a IH]; intros b cur Hb.
  - cbn [app split_go]. rewrite Hw, <-split_go_resume_filter.
    destruct b.
    + rewrite (Hb eq_refl). cbn [reverse]. by rewrite filter_cons_False.
    + change (reverse cur :: split_go true [] rest)
        with ([reverse cur] ++ split_go true [] rest).
      by rewrite filter_app.
  - cbn [app split_go]. destruct (isWhiteSpace c).
    + destruct b; [by apply IH|].
      rewrite !(filter_cons _ (reverse cur)), IH by done.
      by destruct (decide (P (reverse cur))).
    + apply IH. done.
Qed.

Lemma split_ws_app_run a run rest :
  run ≠ [] → allws run →
  filter P (split_ws (a ++ run ++ rest))
  = filter P (split_ws a) ++ filter P (split_ws rest).
Proof.
  intros Hne Hrun. revert a; induction Hrun as [|w run Hw Hrun IH];
    intros a; [done|].
  unfold split_ws in *. cbn [app].
  rewrite split_go_app_ws by done. destruct run as [|w' run]; [done|].
  f_equal. pose proof (IH ltac:(done) []) as Hrec.
  cbn [app] in Hrec. cbn [app]. rewrite Hrec. cbn [split_go].
  change (reverse []) with (@nil N). by rewrite filter_cons_False.
Qed.
End SplitApp.

Lemma join_units (Q : N → Prop) (l : list jsstring) sep :
  Forall (Forall Q) l → Forall Q sep → Forall Q (join l sep).
Proof.
  intros Hl Hs. induction Hl as [|w l Hw Hl IH]; [constructor|].
  destruct l as [|w' l]; [done|]. rewrite join_cons by done.
  apply Forall_app. split; [done|]. apply Forall_app. by split.
Qed.

Lemma lowerUnit_nonempty c : lowerUnit c ≠ [].
Proof. unfold lowerUnit. by repeat case_bool_decide. Qed.

Lemma blank_fixed s :
  Forall (λ c, inTokenClass c = true) s →
  (λ c, if inTokenClass c then c else SPACE) <$> s = s.
Proof.
  intros H. rewrite <-(list_fmap_id s) at 2. apply Forall_fmap_ext.
  eapply Forall_impl; [exact H|]. by intros c ->.
Qed.

Lemma tokenize_of_tokens (l : list jsstring) :
  Forall (Forall (λ c, isTokenUnit c = true)) l →
  Forall (λ t, (2 < length t)%nat) l →
  tokenize (join l [SPACE]) = l.
Proof.
  intros Hu Hlen. rewrite tokenize_unfold.
  assert (Forall (λ c, isTokenUnit c = true ∨ isWhiteSpace c = true)
                 (join l [SPACE])) as Hj.
  { apply join_units; [|by repeat constructor; right].
    eapply Forall_impl; [exact Hu|]. intros t Ht.
    eapply Forall_impl; [exact Ht|]. by left. }
  rewrite toLowerCase_fixed
    by (eapply Forall_impl; [exact Hj|]; apply lowerUnit_token_unit).
  rewrite blank_fixed.
  2:{ eapply Forall_impl; [exact Hj|]. intros c [?|?];
        [by apply isTokenUnit_class|by apply isWhiteSpace_class]. }
  destruct l as [|t l]; [done|]. rewrite split_join; [by apply filter_all|done|].
  split.
  - eapply Forall_impl; [exact Hu|]. intros w Hw.
    eapply Forall_impl; [exact Hw|]. apply isTokenUnit_nonws.
  - apply front_nonempty_tail, nonempty_front.
    eapply Forall_impl; [exact Hlen|]. intros w Hw ->. simpl in Hw. lia.
Qed.

Lemma toLowerCase_app a b : toLowerCase (a ++ b) = toLowerCase a ++ toLowerCase b.
Proof. apply bind_app. Qed.

Lemma tokenize_split_at a c b :
  separates c → tokenize (a ++ c :: b) = tokenize a ++ tokenize b.
Proof.
  intros Hc. rewrite !tokenize_unfold.
  change (a ++ c :: b) with (a ++ [c] ++ b).
  rewrite !toLowerCase_app, !fmap_app.
  apply (split_ws_app_run (λ w, (2 < length w)%nat)).
  - simpl. lia.
  - unfold toLowerCase. cbn. rewrite (right_id_L [] (++)).
    intros ?%fmap_nil_inv. by apply (lowerUnit_nonempty c).
  - unfold toLowerCase, allws, separates in *. cbn.
    rewrite (right_id_L [] (++)).
    apply Forall_fmap. apply (Forall_impl _ _ _ Hc). intros x Hx. simpl.
    destruct (inTokenClass x); [by destruct Hx|by vm_compute].
Qed.

(** ** Properties of the tokenizer and of scoring *)

(** X9.  A token consists of the code units [a-z], [0-9] and the lower-case
    letters [ığüşöç] only: no upper-case letter (those of the character
    class included), no white space and no punctuation ever reaches a
    token. *)
Theorem tokenize_alphabet str :
  Forall (Forall (λ c, isTokenUnit c = true)) (tokenize str).
Proof. apply tokenize_units. Qed.

(** X10.  Tokenising the tokens of a text, joined by spaces, gives the
    same tokens again. *)
Theorem tokenize_tokens_again str :
  tokenize (join (tokenize str) [SPACE]) = tokenize str.
Proof.
  apply tokenize_of_tokens; [apply tokenize_units|].
  eapply Forall_impl; [apply tokenize_long|]. intros t Ht. simpl in Ht. lia.
Qed.



(** X12.  At a code unit that cannot be part of a token (white space,
    punctuation) the tokens of a text are those of the part before it
    followed by those of the part after it: no token spans it. *)
Theorem tokenize_splits_at_separator a c b :
  separates c → tokenize (a ++ c :: b) = tokenize a ++ tokenize b.
Proof. apply tokenize_split_at. Qed.

Lemma tokenize_splits_at_separator_witness :
  separates 0x2C%N
  ∧ tokenize (lit "sleep" ++ 0x2C%N :: lit "routine")
    = tokenize (lit "sleep") ++ tokenize (lit "routine").
Proof.
  assert (separates 0x2C%N) as H by (repeat constructor; by left).
  split; [exact H|].
  exact (tokenize_splits_at_separator (lit "sleep") 0x2C%N (lit "routine") H).
Defined.

(** X13.  The score lies between 0 and the number of chunk tokens, and it
    is 0 exactly when no chunk token is a question token. *)
Theorem scoreChunk_bounds questionTokens chunkTokens :
  0 ≤ scoreChunk questionTokens chunkTokens ≤ Z.of_nat (length chunkTokens)
  ∧ (scoreChunk questionTokens chunkTokens = 0
     ↔ ∀ t, t ∈ chunkTokens → t ∉ questionTokens).
Proof.
  rewrite scoreChunk_count.
  pose proof (length_filter (λ t, t ∈ questionTokens) chunkTokens) as Hle.
  split; [lia|]. split.
  - intros Hz t Ht Hq.
    assert (t ∈ filter (λ t, t ∈ questionTokens) chunkTokens) as Hf
      by by apply list_elem_of_filter.
    destruct (filter _ chunkTokens); [by apply elem_of_nil in Hf|].
    simpl in Hz. lia.
  - intros Hd.
    replace (filter (λ t, t ∈ questionTokens) chunkTokens)
      with (@nil jsstring); [done|].
    symmetry. apply elem_of_nil_inv. intros t [Hq Ht]%list_elem_of_filter.
    by apply (Hd t).
Qed.

(** X14.  The score depends on the question tokens as a set: two token
    sequences with the same members, whatever their order and repetitions,
    give every chunk the same score. *)
Theorem scoreChunk_question_as_set q1 q2 chunkTokens :
  (∀ t, t ∈ q1 ↔ t ∈ q2) →
  scoreChunk q1 chunkTokens = scoreChunk q2 chunkTokens.
Proof.
  intros H. rewrite !scoreChunk_count. do 2 f_equal.
  by apply list_filter_iff.
Qed.

Lemma scoreChunk_question_as_set_witness :
  (∀ t, t ∈ [lit "sleep"; lit "tips"; lit "sleep"]
        ↔ t ∈ [lit "tips"; lit "sleep"])
  ∧ scoreChunk [lit "sleep"; lit "tips"; lit "sleep"]
               [lit "sleep"; lit "well"; lit "sleep"]
    = scoreChunk [lit "tips"; lit "sleep"]
                 [lit "sleep"; lit "well"; lit "sleep"].
Proof.
  assert (∀ t, t ∈ [lit "sleep"; lit "tips"; lit "sleep"]
               ↔ t ∈ [lit "tips"; lit "sleep"]) as H.
  { intros t. rewrite !elem_of_cons, !elem_of_nil. tauto. }
  split; [exact H|].
  exact (scoreChunk_question_as_set _ _ [lit "sleep"; lit "well"; lit "sleep"] H).
Defined.

(** X15.  Scores add up: over the concatenation of two token sequences,
    and over two texts put together around a code unit that cannot be part
    of a token. *)
Theorem scoreChunk_additive questionTokens c1 c2 (question : jsstring) :
  scoreChunk questionTokens (c1 ++ c2)
  = scoreChunk questionTokens c1 + scoreChunk questionTokens c2
  ∧ ∀ a c b, separates c →
      overlap question (a ++ c :: b)
      = (overlap question a + overlap question b)%nat.
Proof.
  split.
  - rewrite !scoreChunk_count, filter_app, length_app. lia.
  - intros a c b Hc. unfold overlap.
    by rewrite tokenize_split_at, filter_app, length_app.
Qed.

Lemma scoreChunk_additive_witness :
  separates SPACE
  ∧ overlap (lit "sleep tips") (lit "sleep well" ++ SPACE :: lit "sleep late")
    = (overlap (lit "sleep tips") (lit "sleep well")
       + overlap (lit "sleep tips") (lit "sleep late"))%nat.
Proof.
  assert (separates SPACE) as H by (repeat constructor; by right).
  split; [exact H|].
  exact (proj2 (scoreChunk_additive [] [] [] (lit "sleep tips"))
               (lit "sleep well") SPACE (lit "sleep late") H).
Defined.

(** ** Retrieval, continued *)

Lemma slice_0_take {A} (l : list A) (e : Z) :
  slice l 0 e = take (Z.to_nat (relativeIndex (Z.of_nat (length l)) e)) l.
Proof.
  unfold slice.
  assert (relativeIndex (Z.of_nat (length l)) 0 = 0) as ->.
  { unfold relativeIndex. rewrite decide_False by lia. lia. }
  change (Z.to_nat 0) with 0%nat. rewrite drop_0. f_equal. lia.
Qed.

Lemma sortedChunks_length srv question :
  length (sortedChunks srv question) = length (CHUNKS srv).
Proof.
  unfold sortedChunks. rewrite (Permutation_length (sort_perm _ _)).
  unfold scoredChunks. by rewrite length_fmap.
Qed.

Lemma retrieve_cases srv question topK :
  let m := Z.to_nat (relativeIndex (Z.of_nat (length (CHUNKS srv))) topK) in
  (retrieveRelevantChunks srv question topK).1
  = if fallbackTest (sortedChunks srv question)
    then Plain <$> take m (CHUNKS srv)
    else WithScore <$> take m (sortedChunks srv question).
Proof.
  intros m. subst m. unfold retrieveRelevantChunks.
  rewrite !slice_0_take, sortedChunks_length.
  by destruct (fallbackTest _).
Qed.

Lemma relativeIndex_range len k :
  0 ≤ len → 0 ≤ relativeIndex len k ≤ len.
Proof. unfold relativeIndex. destruct (decide (k < 0)); lia. Qed.

Lemma sortedChunks_chunk srv question :
  chunk <$> sortedChunks srv question ≡ₚ CHUNKS srv.
Proof.
  unfold sortedChunks. rewrite (sort_perm byScoreDesc).
  by rewrite scoredChunks_chunk.
Qed.

Lemma some_overlap_not_fallback srv question :
  (∃ ch, ch ∈ CHUNKS srv ∧ (0 < overlap question (text ch))%nat) →
  fallbackTest (sortedChunks srv question) = false.
Proof.
  intros (ch & Hch & Hov).
  destruct (fallbackTest (sortedChunks srv question)) eqn:E; [|done].
  apply fallbackTest_all_zero in E.
  - rewrite <-(Forall_fmap score (λ s, s = 0)), scoredChunks_score in E.
    rewrite Forall_fmap, Forall_forall in E. specialize (E ch Hch).
    simpl in E. lia.
  - rewrite scoredChunks_nil. intros He. rewrite He in Hch.
    by apply elem_of_nil in Hch.
  - apply scoredChunks_nonneg.
Qed.

Lemma scoreChunk_same_set q1 q2 chunkTokens :
  (∀ t, t ∈ q1 ↔ t ∈ q2) →
  scoreChunk q1 chunkTokens = scoreChunk q2 chunkTokens.
Proof.
  intros H. rewrite !scoreChunk_count. do 2 f_equal.
  by apply list_filter_iff.
Qed.

Lemma scoredChunks_same_set srv q1 q2 :
  (∀ t, t ∈ tokenize q1 ↔ t ∈ tokenize q2) →
  scoredChunks srv q1 = scoredChunks srv q2.
Proof.
  intros H. unfold scoredChunks. apply list_fmap_ext. intros i ch _.
  f_equal. by apply scoreChunk_same_set.
Qed.

Lemma scoredChunks_no_tokens srv question :
  tokenize question = [] →
  Forall (λ r, score r = 0) (scoredChunks srv question).
Proof.
  intros Hq. apply Forall_forall. intros r (ch & -> & _)%list_elem_of_fmap.
  simpl. rewrite Hq. rewrite scoreChunk_count.
  replace (filter _ _) with (@nil jsstring); [done|].
  symmetry. apply elem_of_nil_inv. intros t [Ht _]%list_elem_of_filter.
  by apply elem_of_nil in Ht.
Qed.

(** ** Properties of retrieval *)

(** X16.  The number of returned records: for [topK ≥ 0] the smaller of
    [topK] and the size of the index; for [topK < 0] the size of the index
    less [-topK] (the last [-topK] candidates are dropped), and none if
    that is negative. *)
Theorem retrieve_length srv question topK :
  let result := (retrieveRelevantChunks srv question topK).1 in
  let len := length (CHUNKS srv) in
  (0 ≤ topK → length result = (Z.to_nat topK `min` len)%nat)
  ∧ (topK < 0 → length result = (len - Z.to_nat (- topK))%nat).
Proof.
  intros result len. subst result len. rewrite retrieve_cases.
  set (m := Z.to_nat (relativeIndex (Z.of_nat (length (CHUNKS srv))) topK)).
  assert (length (if fallbackTest (sortedChunks srv question)
                  then Plain <$> take m (CHUNKS srv)
                  else WithScore <$> take m (sortedChunks srv question))
          = (m `min` length (CHUNKS srv))%nat) as ->.
  { destruct (fallbackTest _); rewrite length_fmap, length_take;
      by rewrite ?sortedChunks_length. }
  subst m. unfold relativeIndex.
  split; intros Hk; [rewrite decide_False by lia|rewrite decide_True by lia];
    lia.
Qed.

Lemma retrieve_length_witness :
  (0 ≤ 1 ∧ length (retrieveRelevantChunks scenario3 (lit "sleep") 1).1
           = (Z.to_nat 1 `min` length (CHUNKS scenario3))%nat)
  ∧ (-1 < 0 ∧ length (retrieveRelevantChunks scenario3 (lit "sleep") (-1)).1
              = (length (CHUNKS scenario3) - Z.to_nat (- -1))%nat).
Proof.
  split; (split; [lia|]).
  - apply (proj1 (retrieve_length scenario3 (lit "sleep") 1)). lia.
  - apply (proj2 (retrieve_length scenario3 (lit "sleep") (-1))). lia.
Defined.

(** X17.  Every returned record stands for an entry of the index, and no
    entry is returned more often than the index holds it. *)
Theorem retrieve_from_index srv question topK :
  r_chunk <$> (retrieveRelevantChunks srv question topK).1 ⊆+ CHUNKS srv.
Proof.
  rewrite retrieve_cases. cbv zeta. destruct (fallbackTest _).
  - rewrite <-list_fmap_compose.
    rewrite (list_fmap_ext (r_chunk ∘ Plain) id) by done.
    rewrite list_fmap_id. apply submseteq_take.
  - rewrite <-list_fmap_compose.
    rewrite (list_fmap_ext (r_chunk ∘ WithScore) chunk) by done.
    rewrite <-(sortedChunks_chunk srv question) at 2.
    apply fmap_submseteq, submseteq_take.
Qed.

(** X18.  When some chunk shares a token with the question, the returned
    records are a prefix of the candidates sorted by descending score, each
    with its score: their scores descend, no candidate left out scores
    higher than one returned, and for [topK > 0] the first record has the
    highest score of the index, which is positive. *)
Theorem retrieve_ranked srv question topK :
  (∃ ch, ch ∈ CHUNKS srv ∧ (0 < overlap question (text ch))%nat) →
  ∃ returned rest,
    (retrieveRelevantChunks srv question topK).1 = WithScore <$> returned
    ∧ sortedChunks srv question = returned ++ rest
    ∧ scoreDescending returned
    ∧ (∀ r s, r ∈ returned → s ∈ rest → score s ≤ score r)
    ∧ (0 < topK →
       ∃ top others, returned = top :: others ∧ 0 < score top
         ∧ ∀ s, s ∈ scoredChunks srv question → score s ≤ score top).
Proof.
  intros Hov. pose proof (some_overlap_not_fallback _ _ Hov) as Hf.
  set (m := Z.to_nat (relativeIndex (Z.of_nat (length (CHUNKS srv))) topK)).
  exists (take m (sortedChunks srv question)),
         (drop m (sortedChunks srv question)).
  pose proof (sort_descending (scoredChunks srv question)) as Hs.
  fold (sortedChunks srv question) in Hs.
  rewrite <-(take_drop m (sortedChunks srv question)) in Hs.
  apply StronglySorted_app in Hs as (Hcross & Hl & _).
  split; [by rewrite retrieve_cases, Hf|]. split; [by rewrite take_drop|].
  split; [exact Hl|]. split; [intros r s Hr Hs; by apply Hcross|].
  intros Hk. destruct Hov as (ch & Hch & Hpos).
  destruct (sortedChunks srv question) as [|top l] eqn:E.
  { pose proof (sortedChunks_length srv question) as Hlen. rewrite E in Hlen.
    destruct (CHUNKS srv); [by apply elem_of_nil in Hch|done]. }
  assert (0 < m)%nat as Hm.
  { subst m. unfold relativeIndex. rewrite decide_False by lia.
    destruct (CHUNKS srv); [by apply elem_of_nil in Hch|simpl; lia]. }
  destruct m as [|m]; [lia|]. exists top, (take m l). split; [done|].
  assert (∀ s, s ∈ scoredChunks srv question → score s ≤ score top) as Hmax.
  { intros s Hin.
    pose proof (descending_head (top :: l) top) as Hh. rewrite <-E in Hh.
    specialize (Hh (sort_descending _) ltac:(by rewrite E)).
    rewrite Forall_forall in Hh. apply Hh.
    unfold sortedChunks. by rewrite (sort_perm byScoreDesc). }
  split; [|exact Hmax].
  assert (Z.of_nat (overlap question (text ch))
            ∈ score <$> scoredChunks srv question) as Hin.
  { rewrite scoredChunks_score.
    by apply (list_elem_of_fmap_2 (λ ch, Z.of_nat (overlap question (text ch)))). }
  apply list_elem_of_fmap in Hin as (s & Hs1 & Hs2).
  specialize (Hmax s Hs2). lia.
Qed.

Lemma retrieve_ranked_witness :
  (∃ ch, ch ∈ CHUNKS scenario3
         ∧ (0 < overlap (lit "sleep routine tips") (text ch))%nat)
  ∧ ∃ returned rest,
      (retrieveRelevantChunks scenario3 (lit "sleep routine tips") 1).1
      = WithScore <$> returned
      ∧ sortedChunks scenario3 (lit "sleep routine tips") = returned ++ rest
      ∧ scoreDescending returned
      ∧ (∀ r s, r ∈ returned → s ∈ rest → score s ≤ score r)
      ∧ (0 < 1 →
         ∃ top others, returned = top :: others ∧ 0 < score top
           ∧ ∀ s, s ∈ scoredChunks scenario3 (lit "sleep routine tips") →
                  score s ≤ score top).
Proof.
  assert (∃ ch, ch ∈ CHUNKS scenario3
                ∧ (0 < overlap (lit "sleep routine tips") (text ch))%nat) as H.
  { eexists. split; [apply list_elem_of_here|]. vm_compute. lia. }
  split; [exact H|].
  exact (retrieve_ranked scenario3 (lit "sleep routine tips") 1 H).
Defined.

(** X19.  A question without a token (every word of it shorter than three
    code units, say) scores nothing anywhere: the answer is the beginning of
    the index, without scores, whatever the index holds. *)
Theorem retrieve_tokenless_question srv question topK :
  tokenize question = [] →
  (retrieveRelevantChunks srv question topK).1
  = Plain <$> slice (CHUNKS srv) 0 topK
  ∧ Forall (λ r, r_score r = None)
           (retrieveRelevantChunks srv question topK).1.
Proof.
  intros Hq.
  assert ((retrieveRelevantChunks srv question topK).1
          = Plain <$> slice (CHUNKS srv) 0 topK) as ->;
    [|split; [done|apply Plain_no_score]].
  destruct (decide (CHUNKS srv = [])) as [He|Hne].
  - unfold retrieveRelevantChunks, sortedChunks, scoredChunks. rewrite He.
    cbn. by rewrite fallbackTest_nil, !slice_nil.
  - apply retrieve_fallback; [done|]. by apply scoredChunks_no_tokens.
Qed.

Lemma retrieve_tokenless_question_witness :
  tokenize (lit "ne? ok") = []
  ∧ (retrieveRelevantChunks scenario3 (lit "ne? ok") 4).1
    = Plain <$> slice (CHUNKS scenario3) 0 4
  ∧ Forall (λ r, r_score r = None)
           (retrieveRelevantChunks scenario3 (lit "ne? ok") 4).1.
Proof.
  assert (tokenize (lit "ne? ok") = []) as H by (by vm_compute).
  split; [exact H|].
  exact (retrieve_tokenless_question scenario3 (lit "ne? ok") 4 H).
Defined.

(** X20.  Retrieval sees a question only through the set of its tokens:
    two questions with the same tokens, in whatever order, case, repetition
    and punctuation, get the same answer. *)
Theorem retrieve_question_as_set srv q1 q2 topK :
  (∀ t, t ∈ tokenize q1 ↔ t ∈ tokenize q2) →
  retrieveRelevantChunks srv q1 topK = retrieveRelevantChunks srv q2 topK.
Proof.
  intros H. unfold retrieveRelevantChunks, sortedChunks.
  by rewrite (scoredChunks_same_set srv q1 q2).
Qed.

Lemma retrieve_question_as_set_witness :
  (∀ t, t ∈ tokenize (lit "Sleep, sleep TIPS!") ↔ t ∈ tokenize (lit "tips sleep"))
  ∧ retrieveRelevantChunks scenario3 (lit "Sleep, sleep TIPS!") 4
    = retrieveRelevantChunks scenario3 (lit "tips sleep") 4.
Proof.
  assert (∀ t, t ∈ tokenize (lit "Sleep, sleep TIPS!")
               ↔ t ∈ tokenize (lit "tips sleep")) as H.
  { intros t.
    change (tokenize (lit "Sleep, sleep TIPS!"))
      with [lit "sleep"; lit "sleep"; lit "tips"].
    change (tokenize (lit "tips sleep")) with [lit "tips"; lit "sleep"].
    rewrite !elem_of_cons, !elem_of_nil. tauto. }
  split; [exact H|].
  exact (retrieve_question_as_set scenario3 _ _ 4 H).
Defined.

(** ** Language detection, continued *)

Lemma spread_two c d r :
  spread (c :: d :: r)
  = if bool_decide (0xD800 ≤ c ≤ 0xDBFF)%N
       && bool_decide (0xDC00 ≤ d ≤ 0xDFFF)%N
    then [c; d] :: spread r
    else [c] :: spread (d :: r).
Proof. done. Qed.

Lemma spread_concat s :
  concat (spread s) = s ∧ ∀ c, concat (spread (c :: s)) = c :: s.
Proof.
  induction s as [|d r [IH1 IH2]].
  - by split.
  - split; [apply IH2|]. intros c. rewrite spread_two.
    destruct (_ && _); rewrite concat_cons; [by rewrite IH1|by rewrite IH2].
Qed.

Lemma spread_unit s :
  let found (s : jsstring) :=
    ∀ u, u ∈ s → ¬ (0xD800 ≤ u ≤ 0xDFFF)%N → [u] ∈ spread s in
  found s ∧ ∀ c, found (c :: s).
Proof.
  induction s as [|d r [IH1 IH2]]; cbn zeta.
  - split; [by intros u ?%elem_of_nil|].
    intros c u ->%list_elem_of_singleton _. apply list_elem_of_here.
  - split; [apply IH2|]. intros c u Hu Hns. rewrite spread_two.
    destruct (bool_decide (0xD800 ≤ c ≤ 0xDBFF)%N) eqn:Ec;
      [destruct (bool_decide (0xDC00 ≤ d ≤ 0xDFFF)%N) eqn:Ed|]; cbn [andb].
    + apply bool_decide_eq_true in Ec, Ed.
      apply elem_of_cons in Hu as [->|Hu]; [lia|].
      apply elem_of_cons in Hu as [->|Hu]; [lia|].
      apply list_elem_of_further. by apply IH1.
    + apply elem_of_cons in Hu as [->|Hu]; [apply list_elem_of_here|].
      apply list_elem_of_further. by apply IH2.
    + apply elem_of_cons in Hu as [->|Hu]; [apply list_elem_of_here|].
      apply list_elem_of_further. by apply IH2.
Qed.

Lemma trChars_bmp u : u ∈ trChars → (u < 0xD800)%N.
Proof.
  unfold trChars. rewrite !elem_of_cons, elem_of_nil. lia.
Qed.

Lemma detectLanguage_units text :
  detectLanguage text = lit "tr" ↔ ∃ u, u ∈ text ∧ u ∈ trChars.
Proof.
  rewrite detectLanguage_tr. split.
  - intros (c & Hc & u & Hu & ->). exists u. split; [|done].
    rewrite <-(proj1 (spread_concat text)).
    apply (elem_of_concat_2 _ [u]); [done|apply list_elem_of_here].
  - intros (u & Hin & Hu). exists [u]. split; [|by exists u].
    apply (proj1 (spread_unit text)); [done|].
    apply trChars_bmp in Hu. lia.
Qed.

(** ** Properties of language detection *)

(** X21.  [detectLanguage] answers [tr] exactly when some UTF-16 code unit
    of the text is one of the twelve letters: pairing surrogates into code
    points never changes the answer. *)
Theorem detectLanguage_by_code_unit text :
  detectLanguage text = lit "tr" ↔ ∃ u, u ∈ text ∧ u ∈ trChars.
Proof. apply detectLanguage_units. Qed.

(** X22.  A text put together from two parts is [tr] exactly when one of
    the parts is; and a text of code units below U+00C7 only (ASCII, say:
    Turkish typed without its special letters) is [en]. *)
Theorem detectLanguage_parts a b :
  (detectLanguage (a ++ b) = lit "tr"
   ↔ detectLanguage a = lit "tr" ∨ detectLanguage b = lit "tr")
  ∧ (Forall (λ u, (u < 0xC7)%N) a → detectLanguage a = lit "en").
Proof.
  split.
  - rewrite !detectLanguage_units. split.
    + intros (u & [Hu|Hu]%elem_of_app & Ht); [left|right]; by exists u.
    + intros [(u & Hu & Ht)|(u & Hu & Ht)]; exists u;
        (split; [apply elem_of_app; by auto|done]).
  - intros Ha. apply detectLanguage_en. rewrite <-detectLanguage_tr.
    rewrite detectLanguage_units. intros (u & Hu & Ht).
    rewrite Forall_forall in Ha. specialize (Ha u Hu).
    unfold trChars in Ht. rewrite !elem_of_cons, elem_of_nil in Ht. lia.
Qed.

Lemma detectLanguage_parts_witness :
  Forall (λ u, (u < 0xC7)%N) (lit "Nasil uyuyabilirim")
  ∧ detectLanguage (lit "Nasil uyuyabilirim") = lit "en".
Proof.
  assert (Forall (λ u, (u < 0xC7)%N) (lit "Nasil uyuyabilirim")) as H.
  { apply Forall_forall. intros u Hu. vm_compute in Hu.
    repeat (apply elem_of_cons in Hu as [->|Hu]; [done|]).
    by apply elem_of_nil in Hu. }
  split; [exact H|].
  exact (proj2 (detectLanguage_parts (lit "Nasil uyuyabilirim") []) H).
Defined.

(** ** Index construction, continued *)

Lemma lit_inj s1 s2 : lit s1 = lit s2 → s1 = s2.
Proof.
  revert s2; induction s1 as [|a s1 IH]; intros [|b s2]; cbn [lit];
    try done.
  intros [= Hab Hs]. f_equal; [|by apply IH].
  by rewrite <-(Ascii.ascii_N_embedding a), Hab, Ascii.ascii_N_embedding.
Qed.

Lemma decimal_inj i j : decimal i = decimal j → i = j.
Proof.
  unfold decimal. intros H%lit_inj.
  apply (f_equal NilEmpty.uint_of_string) in H.
  rewrite !NilEmpty.usu in H. injection H as H.
  by apply DecimalNat.Unsigned.to_uint_inj.
Qed.

Lemma decimal_digits n : Forall (λ c, (0x30 ≤ c ≤ 0x39)%N) (decimal n).
Proof.
  unfold decimal. generalize (Nat.to_uint n) as d.
  induction d; cbn [NilEmpty.string_of_uint lit];
    constructor; (done || by vm_compute).
Qed.

Lemma app_cons_first {A} (x a y b : list A) (h : A) :
  x ++ h :: a = y ++ h :: b → h ∉ x → h ∉ y → x = y ∧ a = b.
Proof.
  revert y; induction x as [|c x IH]; intros [|d y] E Hx Hy; cbn [app] in E.
  - by injection E as ->.
  - injection E as -> _. exfalso. apply Hy, list_elem_of_here.
  - injection E as -> _. exfalso. apply Hx, list_elem_of_here.
  - injection E as -> E. apply not_elem_of_cons in Hx as [_ Hx].
    apply not_elem_of_cons in Hy as [_ Hy].
    destruct (IH y E Hx Hy) as [-> ->]. done.
Qed.

Lemma app_cons_last {A} (a x b y : list A) (h : A) :
  a ++ h :: x = b ++ h :: y → h ∉ x → h ∉ y → a = b ∧ x = y.
Proof.
  intros E Hx Hy. apply (f_equal reverse) in E.
  rewrite !reverse_app, !reverse_cons, <-!(assoc_L (++)) in E. cbn [app] in E.
  apply app_cons_first in E as [E1 E2]; [|by rewrite elem_of_reverse..].
  split; [|apply (inj reverse); done].
  apply (inj reverse); done.
Qed.

(** The source of a chunk tells its file and its ordinal. *)
Lemma source_inj file1 file2 i j :
  file1 ++ lit "#" ++ decimal i = file2 ++ lit "#" ++ decimal j →
  file1 = file2 ∧ i = j.
Proof.
  intros E. change (lit "#") with [0x23%N] in E. cbn [app] in E.
  assert (∀ n, 0x23%N ∉ decimal n) as Hd.
  { intros n Hin. pose proof (decimal_digits n) as Hf.
    rewrite Forall_forall in Hf. specialize (Hf _ Hin). lia. }
  apply app_cons_last in E as [-> E]; [|done..].
  split; [done|]. by apply decimal_inj.
Qed.

Lemma fileRecords_sources file fileChunks :
  source <$> fileRecords file fileChunks
  = imap (λ i _, file ++ lit "#" ++ decimal i) fileChunks.
Proof. unfold fileRecords. by rewrite fmap_imap. Qed.

Lemma contribution_sources fs file src :
  src ∈ source <$> contribution fs file →
  ∃ i, src = file ++ lit "#" ++ decimal i.
Proof.
  unfold contribution. destruct (decide (supported file)); [|by intros ?%elem_of_nil].
  destruct (decode fs file) as [raw|]; [|by intros ?%elem_of_nil].
  destruct (decide (normalizeText raw = [])); [by intros ?%elem_of_nil|].
  rewrite fileRecords_sources.
  intros (i & c & -> & _)%elem_of_lookup_imap_1. by exists i.
Qed.

Lemma contribution_sources_NoDup fs file :
  NoDup (source <$> contribution fs file).
Proof.
  unfold contribution. destruct (decide (supported file)); [|constructor].
  destruct (decode fs file) as [raw|]; [|constructor].
  destruct (decide (normalizeText raw = [])); [constructor|].
  rewrite fileRecords_sources. apply NoDup_alt. intros i j src.
  rewrite !list_lookup_imap. intros Hi Hj.
  destruct (_ !! i); [|done]. destruct (_ !! j); [|done].
  simpl in *. injection Hi as <-. injection Hj as Hj.
  by apply source_inj in Hj as [_ ?].
Qed.

Lemma fmap_bind_list {A B C} (g : B → C) (f : A → list B) (l : list A) :
  g <$> (l ≫= f) = l ≫= (λ x, g <$> f x).
Proof.
  induction l as [|x l IH]; [done|]. by rewrite !bind_cons, fmap_app, IH.
Qed.

Lemma expectedIndex_sources_NoDup fs :
  NoDup (readdirSync fs) → NoDup (source <$> expectedIndex fs).
Proof.
  intros Hfiles. unfold expectedIndex.
  rewrite fmap_bind_list.
  apply NoDup_bind; [|intros; apply contribution_sources_NoDup|done].
  intros f1 f2 src _ _ (i & ->)%contribution_sources (j & E)%contribution_sources.
  by apply source_inj in E as [? _].
Qed.

Lemma buildIndex_file_log fs st file :
  ∃ log, buildIndex_file fs st file
         = Some (st.1 ++ contribution fs file, st.2 ++ log).
Proof.
  unfold buildIndex_file, contribution, supported, decode.
  destruct (decide (_ ∨ _)) as [Hs|Hs].
  - destruct (decide (toLowerCase (NodePath.extname file) = lit ".txt"));
      unfold loadTxtFile, loadDocxFile.
    all: match goal with |- context [match ?d with Some _ => _ | None => _ end] =>
           destruct d as [raw|] end.
    all: try (eexists; by rewrite (right_id_L [] (++)), <-(assoc_L (++))).
    all: destruct (decide (normalizeText raw = []));
      [eexists; by rewrite (right_id_L [] (++))|].
    all: rewrite chunkText_kept by done; cbn [mbind option_bind];
      rewrite forEach_push_imap, <-(assoc_L (++)); eexists; reflexivity.
  - destruct st. exists []. by rewrite !(right_id_L [] (++)).
Qed.

Lemma buildIndex_loop_log fs files st :
  ∃ log, buildIndex_loop fs files st
         = Some (st.1 ++ (files ≫= contribution fs), st.2 ++ log).
Proof.
  revert st; induction files as [|file rest IH]; intros st.
  - exists []. simpl. rewrite !(right_id_L [] (++)). by destruct st.
  - cbn [buildIndex_loop].
    destruct (buildIndex_file_log fs st file) as [log ->].
    cbn [mbind option_bind].
    destruct (IH (st.1 ++ contribution fs file, st.2 ++ log)) as [log' ->].
    exists (log ++ log'). cbn [fst snd].
    by rewrite bind_cons, !(assoc_L (++)).
Qed.

Lemma buildIndex_result fs srv :
  ∃ log, buildIndex fs srv
         = Some {| CHUNKS := expectedIndex fs;
                   console := console srv ++ log
                              ++ [LogTotal (length (expectedIndex fs))] |}.
Proof.
  unfold buildIndex.
  destruct (buildIndex_loop_log fs (readdirSync fs) ([], console srv))
    as [log ->].
  exists log. cbn [mbind option_bind fst snd app].
  by rewrite <-(assoc_L (++)).
Qed.

Lemma normalized_split text :
  normalizeText text ≠ [] → split_ws (normalizeText text) = words text.
Proof.
  intros Hne. rewrite normalizeText_join_words in *.
  destruct (words text) as [|w l] eqn:E; [done|].
  apply split_join; [done|]. rewrite <-E. split; [apply words_wsfree|].
  apply front_nonempty_tail, nonempty_front, words_nonempty.
Qed.

Lemma keptWindows_normalized text c :
  normalizeText text ≠ [] →
  c ∈ keptWindows (Z.to_nat DEFAULT_WORDS_PER_CHUNK)
                  (split_ws (normalizeText text)) →
  (20 < wordCount c ≤ 350)%nat ∧ normalizeText c = c
  ∧ Forall (λ w, w ≠ []) (split_ws c).
Proof.
  intros Hne Hc. split.
  { apply (keptWindows_wordCount 350 (split_ws (normalizeText text)));
      [lia|apply split_ws_pieces|exact Hc]. }
  rewrite normalized_split in Hc by done.
  apply list_elem_of_fmap in Hc as (s & -> & Hs).
  apply list_elem_of_filter in Hs as [Hlen Hs].
  assert (Forall wsfree s ∧ Forall (λ w, w ≠ []) s) as [Hf Hn].
  { pose proof (words_wsfree text) as H1. pose proof (words_nonempty text) as H2.
    rewrite Forall_forall in H1, H2. split; apply Forall_forall; intros w Hw;
      [apply H1|apply H2]; unfold windows in Hs;
        by eapply windows_go_members. }
  split.
  - by rewrite normalizeText_join_words, words_join.
  - rewrite split_join; [done| |].
    + intros ->. simpl in Hlen. lia.
    + split; [done|]. by apply front_nonempty_tail, nonempty_front.
Qed.

(** ** Properties of the index *)

(** X23.  When the directory listing names no file twice, the [source]
    values of the index are pairwise distinct: a source tells its file and
    its ordinal, even for a file name that itself contains [#]. *)
Theorem buildIndex_sources_distinct fs srv :
  NoDup (readdirSync fs) →
  ∃ srv', buildIndex fs srv = Some srv' ∧ NoDup (source <$> CHUNKS srv').
Proof.
  intros Hfiles. destruct (buildIndex_result fs srv) as [log ->].
  eexists. split; [reflexivity|]. by apply expectedIndex_sources_NoDup.
Qed.

Lemma buildIndex_sources_distinct_witness :
  NoDup (readdirSync sampleFs)
  ∧ ∃ srv', buildIndex sampleFs sampleServer = Some srv'
            ∧ NoDup (source <$> CHUNKS srv').
Proof.
  assert (NoDup (readdirSync sampleFs)) as H.
  { apply (bool_decide_unpack (NoDup (readdirSync sampleFs))). by vm_compute. }
  split; [exact H|]. exact (buildIndex_sources_distinct sampleFs sampleServer H).
Defined.

(** X24.  Every chunk of the index that [buildIndex] installs has between
    21 and 350 words, is a normalised text (single spaces between words,
    none at the ends), and carries as source the name of a supported entry
    of the listing, [#], and a decimal ordinal. *)
Theorem buildIndex_chunks_invariant fs srv :
  ∃ srv', buildIndex fs srv = Some srv'
    ∧ Forall (λ ch,
        (20 < wordCount (text ch) ≤ 350)%nat
        ∧ normalizeText (text ch) = text ch
        ∧ Forall (λ w, w ≠ []) (split_ws (text ch))
        ∧ ∃ file idx, file ∈ readdirSync fs ∧ supported file
                      ∧ source ch = file ++ lit "#" ++ decimal idx)
      (CHUNKS srv').
Proof.
  destruct (buildIndex_result fs srv) as [log ->].
  eexists. split; [reflexivity|]. cbn [CHUNKS].
  apply Forall_forall. intros ch (file & Hch & Hfile)%list_elem_of_bind.
  unfold contribution in Hch.
  destruct (decide (supported file)) as [Hs|]; [|by apply elem_of_nil in Hch].
  destruct (decode fs file) as [raw|]; [|by apply elem_of_nil in Hch].
  destruct (decide (normalizeText raw = [])) as [|Hne];
    [by apply elem_of_nil in Hch|].
  apply elem_of_lookup_imap_1 in Hch as (idx & c & -> & Hc).
  apply list_elem_of_lookup_2 in Hc.
  destruct (keptWindows_normalized raw c Hne Hc) as (H1 & H2 & H3).
  cbn [text source]. repeat split; try done; try lia. by exists file, idx.
Qed.

(** X25.  [buildIndex] replaces the index and does not merge: the index it
    installs is the same from any earlier server state, building again
    over its own result changes nothing, and the console only grows, by the
    messages of the build, the last of which reports the size of the
    index. *)
Theorem buildIndex_replaces fs srv other :
  ∃ srv' log,
    buildIndex fs srv = Some srv'
    ∧ CHUNKS <$> buildIndex fs other = Some (CHUNKS srv')
    ∧ CHUNKS <$> buildIndex fs srv' = Some (CHUNKS srv')
    ∧ console srv' = console srv ++ log ++ [LogTotal (length (CHUNKS srv'))].
Proof.
  destruct (buildIndex_result fs srv) as [log ->].
  eexists _, log. split; [reflexivity|].
  destruct (buildIndex_result fs other) as [log1 ->].
  split; [done|]. split; [|done].
  match goal with |- context [buildIndex fs ?s] =>
    destruct (buildIndex_result fs s) as [log2 ->] end.
  done.
Qed.

(** ** The request handler *)

Lemma trimStart_nil_iff s : trimStart s = [] ↔ allws s.
Proof.
  induction s as [|c s IH]; [by split; [constructor|]|].
  cbn [trimStart]. destruct (isWhiteSpace c) eqn:E.
  - rewrite IH. split; [by constructor|]. by intros [_ ?]%Forall_cons.
  - split; [done|]. intros [? _]%Forall_cons. congruence.
Qed.

Lemma trimStart_suffix_allws s : allws s → trimStart s = [].
Proof. apply trimStart_nil_iff. Qed.

Lemma trimStart_head s c r : trimStart s = c :: r → isWhiteSpace c = false.
Proof.
  induction s as [|d s IH]; [done|]. cbn [trimStart].
  destruct (isWhiteSpace d) eqn:E; [done|]. by intros [= <- _].
Qed.

Lemma trim_nil_iff s : trim s = [] ↔ allws s.
Proof.
  unfold trim. split.
  - intros H. apply (f_equal reverse) in H.
    rewrite reverse_involutive in H. cbn in H.
    apply trimStart_nil_iff in H. apply Forall_reverse in H.
    rewrite reverse_involutive in H.
    destruct (trimStart s) as [|c r] eqn:E; [by apply trimStart_nil_iff|].
    apply trimStart_head in E. apply Forall_cons in H as [? _]. congruence.
  - intros H. by rewrite (proj2 (trimStart_nil_iff s) H).
Qed.

Lemma detectLanguage_two text :
  detectLanguage text = lit "tr" ∨ detectLanguage text = lit "en".
Proof. unfold detectLanguage. destruct (existsb _ _); auto. Qed.

Lemma prompts_defined p question context text :
  prompts p question context (detectLanguage text)
  = Some (fillTemplate
            (if decide (detectLanguage text = lit "tr")
             then trTemplate p else enTemplate p) question context).
Proof.
  unfold prompts.
  destruct (detectLanguage_two text) as [E|E]; rewrite E; done.
Qed.

Lemma contextOf_nil_iff relevant : contextOf relevant = [] ↔ relevant = [].
Proof.
  unfold contextOf. rewrite join_nil_iff.
  - split; [apply fmap_nil_inv|by intros ->].
  - apply Forall_fmap, Forall_forall. by intros r _.
Qed.

Lemma retrieve_4_nil_iff srv question :
  (retrieveRelevantChunks srv question 4).1 = [] ↔ CHUNKS srv = [].
Proof.
  rewrite retrieve_cases. cbv zeta.
  set (m := Z.to_nat _).
  assert (CHUNKS srv ≠ [] → (0 < m)%nat) as Hm.
  { subst m. unfold relativeIndex. rewrite decide_False by lia.
    destruct (CHUNKS srv); [done|]. simpl. lia. }
  pose proof (sortedChunks_length srv question) as Hlen.
  destruct (CHUNKS srv) as [|ch l] eqn:E.
  - destruct (sortedChunks srv question); [|done].
    rewrite !take_nil. by destruct (fallbackTest _).
  - specialize (Hm ltac:(done)). destruct m as [|m]; [lia|].
    destruct (sortedChunks srv question); [done|].
    by destruct (fallbackTest _).
Qed.

Lemma chat_unfold p groq srv q :
  let question := trim (default [] q) in
  let relevant := (retrieveRelevantChunks srv question 4).1 in
  let selectedPrompt :=
    prompts p question (contextOf relevant) (detectLanguage question) in
  let request := GroqRequest (systemContent p) selectedPrompt in
  question ≠ [] →
  chat p groq srv (Some q)
  = match groq (systemContent p) selectedPrompt with
    | None => (Status500, [request; ErrorLogged], srv)
    | Some content =>
        (Status200 (default [] content) (detectLanguage question)
           ((λ r, (r_source r, r_score r)) <$> relevant),
         [request], srv)
    end.
Proof.
  intros question relevant selectedPrompt request Hne.
  unfold chat. fold question. rewrite decide_False by done.
  pose proof (retrieve_state srv question 4) as Hst.
  subst selectedPrompt request relevant.
  destruct (retrieveRelevantChunks srv question 4) as [rel srv'].
  cbn [fst snd] in *. subst srv'. done.
Qed.

(** ** Properties of the request handler *)

(** X26.  [/chat] answers 400 with the empty-question error, without
    calling the generation service and without touching the index, exactly
    when the question is missing or consists of white space only. *)
Theorem chat_rejects_blank p groq srv q :
  chat p groq srv (Some q) = (Status400 EMPTY_QUESTION_ERROR, [], srv)
  ↔ allws (default [] q).
Proof.
  rewrite <-trim_nil_iff. split.
  - intros H. destruct (decide (trim (default [] q) = [])) as [|Hne]; [done|].
    rewrite chat_unfold in H by done. by destruct (groq _ _).
  - intros H. unfold chat. by rewrite decide_True.
Qed.

(** X27.  For a question that is not blank, [/chat] calls the generation
    service exactly once, with the system message of the persona and a
    prompt that is never [undefined]: the template of the detected language
    filled with the trimmed question and the context.  If the call fails
    the answer is 500 and the error is logged; otherwise it is 200 with the
    content (or the empty string), the detected language, which is [tr] or
    [en], and one [used_chunks] entry for each of the at most 4 retrieved
    records.  The index is left as it was. *)
Theorem chat_answers p groq srv q :
  let question := trim (default [] q) in
  let lang := detectLanguage question in
  let relevant := (retrieveRelevantChunks srv question 4).1 in
  let prompt :=
    fillTemplate (if decide (lang = lit "tr") then trTemplate p
                  else enTemplate p) question (contextOf relevant) in
  let used := (λ r, (r_source r, r_score r)) <$> relevant in
  question ≠ [] →
  chat p groq srv (Some q)
  = match groq (systemContent p) (Some prompt) with
    | None =>
        (Status500,
         [GroqRequest (systemContent p) (Some prompt); ErrorLogged], srv)
    | Some content =>
        (Status200 (default [] content) lang used,
         [GroqRequest (systemContent p) (Some prompt)], srv)
    end
  ∧ (lang = lit "tr" ∨ lang = lit "en")
  ∧ length used = (4 `min` length (CHUNKS srv))%nat.
Proof.
  intros question lang relevant prompt used Hne.
  split; [|split].
  - rewrite chat_unfold by done. fold question.
    by rewrite prompts_defined.
  - apply detectLanguage_two.
  - subst used relevant. rewrite length_fmap, retrieve_cases. cbv zeta.
    assert (Z.to_nat (relativeIndex (Z.of_nat (length (CHUNKS srv))) 4)
            = (4 `min` length (CHUNKS srv))%nat) as ->.
    { unfold relativeIndex. rewrite decide_False by lia. lia. }
    destruct (fallbackTest _); rewrite length_fmap, length_take;
      rewrite ?sortedChunks_length; lia.
Qed.

Lemma chat_answers_witness :
  trim (default [] (Some (lit " vitamin dosage "))) ≠ []
  ∧ chat plainPersona failingGroq sampleServer (Some (Some (lit " vitamin dosage ")))
    = (Status500,
       [GroqRequest (systemContent plainPersona)
          (Some (fillTemplate (enTemplate plainPersona) (lit "vitamin dosage")
                   (contextOf (Plain <$> CHUNKS sampleServer))));
        ErrorLogged], sampleServer).
Proof.
  assert (trim (default [] (Some (lit " vitamin dosage "))) ≠ []) as H
    by (by vm_compute).
  split; [exact H|].
  etrans;
    [exact (proj1 (chat_answers plainPersona failingGroq sampleServer
                     (Some (lit " vitamin dosage ")) H))|].
  by vm_compute.
Defined.

(** X28.  The prompt carries the no-context notice of its template exactly
    when the index is empty; with a non-empty index it carries the context,
    which is then not empty: one block [Source: source, newline, text] per
    retrieved record. *)
Theorem chat_prompt_context (t : Template) srv question :
  let relevant := (retrieveRelevantChunks srv question 4).1 in
  (CHUNKS srv = [] →
   fillTemplate t question (contextOf relevant)
   = head_ t ++ question ++ mid_ t ++ noContext t ++ tail_ t)
  ∧ (CHUNKS srv ≠ [] →
     contextOf relevant ≠ []
     ∧ fillTemplate t question (contextOf relevant)
       = head_ t ++ question ++ mid_ t ++ contextOf relevant ++ tail_ t).
Proof.
  intros relevant. subst relevant. unfold fillTemplate. split; intros H.
  - rewrite decide_True; [done|].
    by apply contextOf_nil_iff, retrieve_4_nil_iff.
  - assert (contextOf (retrieveRelevantChunks srv question 4).1 ≠ []) as Hc
      by by rewrite contextOf_nil_iff, retrieve_4_nil_iff.
    by rewrite decide_False.
Qed.

Lemma chat_prompt_context_witness :
  (CHUNKS {| CHUNKS := []; console := [] |} = [] ∧
   fillTemplate (enTemplate plainPersona) (lit "sleep")
     (contextOf (retrieveRelevantChunks {| CHUNKS := []; console := [] |}
                   (lit "sleep") 4).1)
   = head_ (enTemplate plainPersona) ++ lit "sleep"
     ++ mid_ (enTemplate plainPersona) ++ noContext (enTemplate plainPersona)
     ++ tail_ (enTemplate plainPersona))
  ∧ (CHUNKS sampleServer ≠ [] ∧
     contextOf (retrieveRelevantChunks sampleServer (lit "sleep") 4).1 ≠ []).
Proof.
  split.
  - split; [done|].
    by apply (proj1 (chat_prompt_context (enTemplate plainPersona)
                       {| CHUNKS := []; console := [] |} (lit "sleep"))).
  - assert (CHUNKS sampleServer ≠ []) as H by done.
    split; [exact H|].
    exact (proj1 (proj2 (chat_prompt_context (enTemplate plainPersona)
                           sampleServer (lit "sleep")) H)).
Defined.

(** X29.  When no chunk shares a token with the question, the
    [used_chunks] of a 200 answer name the first entries of the index, at
    most 4, and none of them has a score: the [score] key is missing from
    each. *)
Theorem chat_fallback_used_chunks p groq srv q answer language used :
  (∀ ch, ch ∈ CHUNKS srv →
         overlap (trim (default [] q)) (text ch) = 0%nat) →
  (chat p groq srv (Some q)).1.1 = Status200 answer language used →
  used = (λ ch, (source ch, None)) <$> take 4 (CHUNKS srv).
Proof.
  intros Hz Hr.
  destruct (decide (trim (default [] q) = [])) as [He|Hne].
  { unfold chat in Hr. by rewrite decide_True in Hr. }
  rewrite chat_unfold in Hr by done.
  destruct (groq _ _); [|done]. cbn [fst] in Hr. injection Hr as _ _ <-.
  rewrite (retrieve_fallback_prefix srv _ 4); [|lia|].
  - rewrite <-list_fmap_compose. by apply list_fmap_ext.
  - rewrite <-(Forall_fmap score (λ s, s = 0)), scoredChunks_score.
    rewrite Forall_fmap, Forall_forall. intros ch Hch. simpl.
    by rewrite Hz.
Qed.

Lemma chat_fallback_used_chunks_witness :
  (∀ ch, ch ∈ CHUNKS sampleServer →
         overlap (trim (default [] (Some (lit "vitamin dosage")))) (text ch)
         = 0%nat)
  ∧ (chat plainPersona echoGroq sampleServer (Some (Some (lit "vitamin dosage")))).1.1
    = Status200
        (fillTemplate (enTemplate plainPersona) (lit "vitamin dosage")
           (contextOf (Plain <$> CHUNKS sampleServer)))
        (lit "en") [(lit "notes.TXT#0", None)]
  ∧ [(lit "notes.TXT#0", @None Z)]
    = (λ ch, (source ch, None)) <$> take 4 (CHUNKS sampleServer).
Proof.
  assert (∀ ch, ch ∈ CHUNKS sampleServer →
            overlap (trim (default [] (Some (lit "vitamin dosage")))) (text ch)
            = 0%nat) as Hz.
  { intros ch Hch. cbn [CHUNKS sampleServer] in Hch.
    apply list_elem_of_singleton in Hch as ->. by vm_compute. }
  assert ((chat plainPersona echoGroq sampleServer
             (Some (Some (lit "vitamin dosage")))).1.1
          = Status200
              (fillTemplate (enTemplate plainPersona) (lit "vitamin dosage")
                 (contextOf (Plain <$> CHUNKS sampleServer)))
              (lit "en") [(lit "notes.TXT#0", None)]) as Hr
    by (by vm_compute).
  split; [exact Hz|]. split; [exact Hr|].
  exact (chat_fallback_used_chunks plainPersona echoGroq sampleServer
           (Some (lit "vitamin dosage")) _ _ _ Hz Hr).
Defined.
